(** * Hoare-partition quicksort and its fork-join variant (main.cpp)

    A shallow embedding of [partition], [quicksort] and [parallelQuicksort]
    of main.cpp.  The vector is a [list Z]; iterators are positions in [Z]
    (the code forms [begin - 1], so positions are not naturals).  The code
    is written in a small monad of loads and stores, so that the two tasks
    of [tbb::parallel_invoke] can be interleaved one memory access at a
    time.  A dereference outside the vector is a fault; loops and recursion
    are bounded by fuel. *)

From Stdlib Require Import ZArith Lia.
From stdpp Require Import base tactics option list relations.

Local Open Scope Z_scope.

(** ** Programs over the vector *)

(** A program returns, loads [*it] and goes on with the value, stores to
    [*it] and goes on, or has used up its fuel. *)
Inductive prog (A : Type) : Type :=
  | Ret (a : A)
  | Load (i : Z) (k : Z -> prog A)
  | Store (i : Z) (x : Z) (k : prog A)
  | Spent.
Arguments Ret {A} a.
Arguments Load {A} i k.
Arguments Store {A} i x k.
Arguments Spent {A}.

Fixpoint bind {A B} (p : prog A) (f : A -> prog B) : prog B :=
  match p with
  | Ret a => f a
  | Load i k => Load i (fun x => bind (k x) f)
  | Store i x k => Store i x (bind k f)
  | Spent => Spent
  end.

Notation "'let*' x := m 'in' k" := (bind m (fun x => k))
  (at level 10, x name, m at level 100, k at level 200).
Notation "m >> k" := (bind m (fun _ => k))
  (at level 199, right associativity).

Definition ret {A} (a : A) : prog A := Ret a.
Definition out_of_fuel {A} : prog A := Spent.

(** [*it] as an rvalue. *)
Definition load (i : Z) : prog Z := Load i Ret.

(** [*it = x]. *)
Definition store (i : Z) (x : Z) : prog unit := Store i x (Ret tt).

(** [std::iter_swap(l, r)]: [tmp = *l; *l = *r; *r = tmp]. *)
Definition iter_swap (l r : Z) : prog unit :=
  let* tmp := load l in
  let* y := load r in
  store l y >> store r tmp.

(** ** The partitioner (main.cpp, lines 73-86) *)

(** The loop [do ++l; while ( *l < ref );] *)
Fixpoint scan_up (fuel : nat) (ref l : Z) : prog Z :=
  match fuel with
  | O => out_of_fuel
  | S f =>
      let l := l + 1 in
      let* x := load l in
      if x <? ref then scan_up f ref l else ret l
  end.

(** The loop [do --r; while ( *r > ref );] *)
Fixpoint scan_down (fuel : nat) (ref r : Z) : prog Z :=
  match fuel with
  | O => out_of_fuel
  | S f =>
      let r := r - 1 in
      let* x := load r in
      if x >? ref then scan_down f ref r else ret r
  end.

(** The body of [while (true)]; [scans] is the fuel of the two inner loops. *)
Fixpoint partition_loop (scans fuel : nat) (ref l r : Z) : prog Z :=
  match fuel with
  | O => out_of_fuel
  | S f =>
      let* l := scan_up scans ref l in
      let* r := scan_down scans ref r in
      if l >=? r then ret r
      else iter_swap l r >> partition_loop scans f ref l r
  end.

Definition partition (fuel : nat) (begin end_ : Z) (ref : Z) : prog Z :=
  if begin >=? end_ then ret begin
  else
    let l := begin - 1 in
    let r := end_ in
    partition_loop fuel fuel ref l r.

(** ** The sort engine (main.cpp, lines 88-117) *)

Fixpoint quicksort (fuel : nat) (begin end_ : Z) : prog unit :=
  match fuel with
  | O => out_of_fuel
  | S f =>
      if begin <? end_ then
        let refIt := begin + Z.quot (end_ - begin) 2 in
        let* ref := load refIt in
        let* m := partition fuel begin end_ ref in
        quicksort f begin m >> quicksort f (m + 1) end_
      else ret tt
  end.

(** [tbb::parallel_invoke(f, g)] returns once both tasks have returned.
    The interleaving [sch] tells, access by access, which task moves next
    ([true]: the first one); a task that has returned leaves the other one
    to run alone, and when [sch] is used up [f] runs before [g]. *)
Fixpoint parallel_invoke (sch : list bool) (f g : prog unit) : prog unit :=
  match sch with
  | [] => f >> g
  | true :: sch' =>
      match f with
      | Ret _ => g
      | Load i k => Load i (fun x => parallel_invoke sch' (k x) g)
      | Store i x k => Store i x (parallel_invoke sch' k g)
      | Spent => Spent
      end
  | false :: sch' =>
      match g with
      | Ret _ => f
      | Load i k => Load i (fun x => parallel_invoke sch' f (k x))
      | Store i x k => Store i x (parallel_invoke sch' f k)
      | Spent => Spent
      end
  end.

(** The default of the template parameter [granularity]. *)
Definition default_granularity : N := 256%N.

(** [parallelQuicksort<It, granularity>(begin, end)].  The recursive calls
    in the two lambdas name no template argument, so they run with the
    default granularity.  [granularity] is a [size_t]; [end - begin] is
    positive where the two are compared.  [sched] gives the interleaving
    of the two tasks forked on a range. *)
Fixpoint parallelQuicksort (sched : Z -> Z -> list bool) (fuel : nat)
    (granularity : N) (begin end_ : Z) : prog unit :=
  match fuel with
  | O => out_of_fuel
  | S f =>
      if begin <? end_ then
        if end_ - begin <=? Z.of_N granularity then quicksort fuel begin end_
        else
          let refIt := begin + Z.quot (end_ - begin) 2 in
          let* ref := load refIt in
          let* m := partition fuel begin end_ ref in
          parallel_invoke (sched begin end_)
            (parallelQuicksort sched f default_granularity begin m)
            (parallelQuicksort sched f default_granularity (m + 1) end_)
      else ret tt
  end.

(** ** Running a program *)

(** A run ends normally, dereferences a position outside the vector
    (undefined behaviour in the source), or exhausts its fuel. *)
Inductive outcome (A : Type) : Type :=
  | Done (a : A)
  | Fault (pos : Z)
  | OutOfFuel.
Arguments Done {A} a.
Arguments Fault {A} pos.
Arguments OutOfFuel {A}.

(** The element at position [i], if [i] is inside the vector. *)
Definition at_pos (s : list Z) (i : Z) : option Z :=
  if decide (0 <= i) then s !! Z.to_nat i else None.

Fixpoint run {A} (p : prog A) (s : list Z) : outcome (A * list Z) :=
  match p with
  | Ret a => Done (a, s)
  | Load i k =>
      match at_pos s i with
      | Some x => run (k x) s
      | None => Fault i
      end
  | Store i x k =>
      match at_pos s i with
      | Some _ => run k (<[Z.to_nat i := x]> s)
      | None => Fault i
      end
  | Spent => OutOfFuel
  end.

Definition result {A} (o : outcome (A * list Z)) : outcome (list Z) :=
  match o with
  | Done (_, s) => Done s
  | Fault i => Fault i
  | OutOfFuel => OutOfFuel
  end.

Definition len (s : list Z) : Z := Z.of_nat (length s).

(** [quicksort(v.begin(), v.end())] *)
Definition sort (fuel : nat) (s : list Z) : outcome (list Z) :=
  result (run (quicksort fuel 0 (len s)) s).

(** [parallelQuicksort<It, granularity>(v.begin(), v.end())] *)
Definition parallelSort (sched : Z -> Z -> list bool) (fuel : nat) (granularity : N)
    (s : list Z) : outcome (list Z) :=
  result (run (parallelQuicksort sched fuel granularity 0 (len s)) s).

(** ** The sequential sort as the design document words it

    Section 4.2: a range of size 0 or 1 returns at once; otherwise the pivot
    is the value at the midpoint, the partitioner gives the split [m], and
    the sort recurses on the left subrange up to and including [m] and on
    the right subrange strictly after [m]. *)
Fixpoint spec_quicksort (fuel : nat) (begin end_ : Z) : prog unit :=
  match fuel with
  | O => out_of_fuel
  | S f =>
      if end_ - begin <=? 1 then ret tt
      else
        let* ref := load (begin + Z.quot (end_ - begin) 2) in
        let* m := partition fuel begin end_ ref in
        spec_quicksort f begin (m + 1) >> spec_quicksort f (m + 1) end_
  end.

Definition spec_sort (fuel : nat) (s : list Z) : outcome (list Z) :=
  result (run (spec_quicksort fuel 0 (len s)) s).

(** ** Vocabulary of the statements *)

(** The element at position [i], with a default outside the vector. *)
Definition get (s : list Z) (i : Z) : Z := default 0 (at_pos s i).

(** The vector after exchanging the elements at [l] and [r]. *)
Definition swapped (s : list Z) (l r : Z) : list Z :=
  <[Z.to_nat r := get s l]> (<[Z.to_nat l := get s r]> s).

(** Non-descending: every adjacent pair is in order. *)
Definition nondescending (s : list Z) : Prop :=
  forall (i : nat) (x y : Z), s !! i = Some x -> s !! S i = Some y -> x <= y.

Fixpoint nondescendingb (s : list Z) : bool :=
  match s with
  | x :: (y :: _) as t => (x <=? y) && nondescendingb t
  | _ => true
  end.

(** One exchange made by the partitioner inside [[b, e)]: positions
    [l < r] whose elements are out of order. *)
Definition swap_step (b e : Z) (s s' : list Z) : Prop :=
  exists l r, b <= l /\ l < r /\ r < e /\ 0 <= l /\ r < len s /\
    get s r <= get s l /\ s' = swapped s l r.

(** Any number of such exchanges. *)
Definition shuffles (b e : Z) : relation (list Z) := rtc (swap_step b e).

(** The pivot value [ref] occurs at some position of [[b, e)]. *)
Definition occurs (s : list Z) (b e ref : Z) : Prop :=
  exists p, b <= p < e /\ at_pos s p = Some ref.

(** The positions of the range [[b, e)]. *)
Definition range (b e : Z) : Z -> Prop := fun i => b <= i < e.

(** The run of [p] from [s] finishes, and every position it loads from or
    stores to is inside the vector and satisfies [P]. *)
Inductive within {A} (P : Z -> Prop) : prog A -> list Z -> Prop :=
  | within_Ret a s : within P (Ret a) s
  | within_Load i k s x :
      P i -> at_pos s i = Some x -> within P (k x) s -> within P (Load i k) s
  | within_Store i x k s :
      P i -> is_Some (at_pos s i) -> within P k (<[Z.to_nat i := x]> s) ->
      within P (Store i x k) s.

(** Two vectors of one length that hold the same elements at the
    positions [P]. *)
Definition agree (P : Z -> Prop) (s1 s2 : list Z) : Prop :=
  length s1 = length s2 /\ forall i, P i -> get s1 i = get s2 i.

(** The state at the head of [while (true)] in [partition], with cursors
    [l] and [r]: what lies behind the cursors is on the right side of the
    pivot, and each cursor still has a position to stop at. *)
Record loop_inv (b e ref : Z) (s : list Z) (l r : Z) : Prop := {
  inv_len : e <= len s;
  inv_l : b - 1 <= l;
  inv_lr : l < r;
  inv_r : r <= e;
  inv_left : forall i, b <= i <= l -> get s i <= ref;
  inv_right : forall i, r <= i < e -> ref <= get s i;
  inv_stop_up : exists p, l < p /\ p <= r /\ p < e /\ ref <= get s p;
  inv_stop_down : exists q, l <= q /\ q < r /\ b <= q /\ get s q <= ref
}.

(** The run of [p] from [s] finishes, dereferences positions of [[b, e)]
    only, and leaves every element outside [[b, e)] as it was. *)
Definition confined {A} (b e : Z) (p : prog A) (s : list Z) : Prop :=
  within (range b e) p s /\
  exists x s',
    run p s = Done (x, s') /\
    length s' = length s /\
    forall i, ~ (b <= i < e) -> at_pos s' i = at_pos s i.


(** ** Lemmas on positions *)

Lemma at_pos_Some s i x : at_pos s i = Some x -> 0 <= i < len s.
Proof.
  unfold at_pos, len. case_decide; [|done].
  intros Hx%lookup_lt_Some. lia.
Qed.

Lemma at_pos_get s i : 0 <= i < len s -> at_pos s i = Some (get s i).
Proof.
  unfold get, at_pos, len. intros [H0 H1]. rewrite decide_True by done.
  destruct (lookup_lt_is_Some_2 s (Z.to_nat i)) as [x ->]; [lia|done].
Qed.

Lemma at_pos_None s i : ~ (0 <= i < len s) -> at_pos s i = None.
Proof.
  intros H. destruct (at_pos s i) eqn:E; [|done].
  apply at_pos_Some in E. contradiction.
Qed.

Lemma get_lookup s (i : nat) x : s !! i = Some x -> get s (Z.of_nat i) = x.
Proof.
  intros H. unfold get, at_pos. rewrite decide_True by lia.
  by rewrite Nat2Z.id, H.
Qed.

Lemma lookup_get s (i : nat) : (i < length s)%nat -> s !! i = Some (get s (Z.of_nat i)).
Proof.
  intros H. destruct (lookup_lt_is_Some_2 s i H) as [x Hx].
  by rewrite (get_lookup _ _ _ Hx).
Qed.

Lemma vec_ext (s1 s2 : list Z) :
  length s1 = length s2 -> (forall i, 0 <= i < len s1 -> get s1 i = get s2 i) -> s1 = s2.
Proof.
  intros Hl Hg. apply list_eq. intros i.
  destruct (decide (i < length s1)%nat) as [Hi|Hi].
  - rewrite !lookup_get by lia. f_equal. apply Hg. unfold len. lia.
  - rewrite !lookup_ge_None_2; [done|lia..].
Qed.

Lemma len_insert s (i : nat) x : len (<[i := x]> s) = len s.
Proof. unfold len. by rewrite length_insert. Qed.

Lemma get_insert s (j : Z) x i :
  0 <= j < len s -> get (<[Z.to_nat j := x]> s) i = if decide (i = j) then x else get s i.
Proof.
  intros Hj. case_decide as Hij.
  - subst i. unfold get, at_pos. rewrite decide_True by lia.
    rewrite list_lookup_insert_eq; [done|unfold len in Hj; lia].
  - unfold get, at_pos. case_decide; [|done].
    rewrite list_lookup_insert_ne; [done|lia].
Qed.

Lemma len_swapped s l r : len (swapped s l r) = len s.
Proof. unfold swapped. by rewrite !len_insert. Qed.

Lemma length_swapped s l r : length (swapped s l r) = length s.
Proof. unfold swapped. by rewrite !length_insert. Qed.

Lemma get_swapped s l r i :
  0 <= l < len s -> 0 <= r < len s ->
  get (swapped s l r) i =
    if decide (i = r) then get s l else if decide (i = l) then get s r else get s i.
Proof.
  intros Hl Hr. unfold swapped.
  rewrite get_insert by (by rewrite len_insert).
  case_decide; [done|]. by rewrite get_insert.
Qed.

(** ** Exchanges: permutation, frame and sorted vectors *)

Lemma insert_head_perm (s : list Z) (j : nat) a y :
  s !! j = Some y -> y :: <[j := a]> s ≡ₚ a :: s.
Proof.
  revert j. induction s as [|c s IH]; intros [|j] Hj; simplify_eq/=.
  - apply Permutation_swap.
  - etrans; [apply Permutation_swap|]. etrans; [|apply Permutation_swap].
    f_equiv. by apply IH.
Qed.

Lemma insert_insert_perm (s : list Z) (i j : nat) x y :
  s !! i = Some x -> s !! j = Some y -> <[j := x]> (<[i := y]> s) ≡ₚ s.
Proof.
  revert i j. induction s as [|c s IH]; intros [|i] [|j] Hi Hj; simplify_eq/=.
  - done.
  - by apply insert_head_perm.
  - by apply insert_head_perm.
  - f_equiv. by apply IH.
Qed.

Lemma swapped_perm s l r :
  0 <= l < len s -> 0 <= r < len s -> swapped s l r ≡ₚ s.
Proof.
  intros Hl Hr. unfold swapped. apply insert_insert_perm.
  - rewrite <- (Z2Nat.id l) at 2 by lia. apply lookup_get. unfold len in Hl. lia.
  - rewrite <- (Z2Nat.id r) at 2 by lia. apply lookup_get. unfold len in Hr. lia.
Qed.

Lemma nondescending_le s i j :
  nondescending s -> 0 <= i -> i <= j -> j < len s -> get s i <= get s j.
Proof.
  intros Hs Hi Hij Hj.
  assert (forall d : nat, Z.of_nat d + i < len s -> get s i <= get s (Z.of_nat d + i)) as Hd.
  { induction d as [|d IH]; intros Hlt.
    - replace (Z.of_nat 0 + i) with i by lia. done.
    - etrans; [apply IH; lia|].
      assert (Z.of_nat d + i = Z.of_nat (d + Z.to_nat i)) as E1 by lia.
      assert (Z.of_nat (S d) + i = Z.of_nat (S (d + Z.to_nat i))) as E2 by lia.
      rewrite E1, E2. unfold len in Hlt.
      apply (Hs (d + Z.to_nat i)%nat); apply lookup_get; lia. }
  specialize (Hd (Z.to_nat (j - i))).
  replace (Z.of_nat (Z.to_nat (j - i)) + i) with j in Hd by lia. auto.
Qed.

Lemma nondescendingb_spec s : nondescendingb s = true <-> nondescending s.
Proof.
  induction s as [|x [|y t] IH].
  - split; [|done]. intros _ i ? ? Hi. by rewrite lookup_nil in Hi.
  - split; [|done]. intros _ [|i] ? ? H1 H2; simplify_eq/=.
  - change (nondescendingb (x :: y :: t)) with ((x <=? y) && nondescendingb (y :: t)).
    rewrite andb_true_iff, IH, Z.leb_le. split.
    + intros [Hxy Ht] [|i] a c Ha Hc; simplify_eq/=; [done|]. by apply (Ht i).
    + intros Hs. split.
      * by apply (Hs 0%nat).
      * intros i a c Ha Hc. by apply (Hs (S i)).
Qed.

Lemma swap_step_sorted b e s s' : nondescending s -> swap_step b e s s' -> s' = s.
Proof.
  intros Hs (l & r & Hbl & Hlr & Hre & H0 & Hlen & Hle & ->).
  assert (get s l = get s r) as E.
  { apply Z.le_antisymm; [|done]. apply nondescending_le; [done|lia..]. }
  apply vec_ext; [apply length_swapped|]. intros i _.
  rewrite get_swapped by lia. repeat case_decide; congruence.
Qed.

Lemma swap_step_mono b e b' e' s s' :
  b' <= b -> e <= e' -> swap_step b e s s' -> swap_step b' e' s s'.
Proof.
  intros ? ? (l & r & ? & ? & ? & ? & ? & ? & ->).
  exists l, r. repeat split; (lia || done).
Qed.

Lemma shuffles_refl b e s : shuffles b e s s.
Proof. apply rtc_refl. Qed.

Lemma shuffles_trans b e s1 s2 s3 :
  shuffles b e s1 s2 -> shuffles b e s2 s3 -> shuffles b e s1 s3.
Proof. apply rtc_trans. Qed.

Lemma shuffles_mono b e b' e' s s' :
  b' <= b -> e <= e' -> shuffles b e s s' -> shuffles b' e' s s'.
Proof.
  intros ? ?. unfold shuffles. induction 1 as [|s1 s2 s3 H12 _ IH]; [apply rtc_refl|].
  eapply rtc_l; [|exact IH]. by eapply swap_step_mono.
Qed.

Lemma shuffles_swapped b e s l r :
  b <= l -> l < r -> r < e -> 0 <= l -> r < len s -> get s r <= get s l ->
  shuffles b e s (swapped s l r).
Proof. intros. apply rtc_once. exists l, r. repeat split; (lia || done). Qed.

Lemma shuffles_length b e s s' : shuffles b e s s' -> length s' = length s.
Proof.
  induction 1 as [|s1 s2 s3 (l & r & ? & ? & ? & ? & ? & ? & ->) _ IH]; [done|].
  by rewrite IH, length_swapped.
Qed.

Lemma shuffles_len b e s s' : shuffles b e s s' -> len s' = len s.
Proof. intros H. unfold len. by rewrite (shuffles_length _ _ _ _ H). Qed.

Lemma shuffles_perm b e s s' : shuffles b e s s' -> s' ≡ₚ s.
Proof.
  induction 1 as [|s1 s2 s3 (l & r & ? & ? & ? & ? & ? & ? & ->) _ IH]; [done|].
  rewrite IH. apply swapped_perm; lia.
Qed.

Lemma shuffles_frame b e s s' i :
  shuffles b e s s' -> ~ (b <= i < e) -> get s' i = get s i.
Proof.
  intros H Hi. induction H as [|s1 s2 s3 (l & r & ? & ? & ? & ? & ? & ? & ->) _ IH]; [done|].
  rewrite IH, get_swapped by lia. repeat case_decide; (lia || done).
Qed.

Lemma shuffles_sorted b e s s' : nondescending s -> shuffles b e s s' -> s' = s.
Proof.
  intros Hs H. induction H as [|s1 s2 s3 H12 _ IH]; [done|].
  apply (swap_step_sorted _ _ _ _ Hs) in H12. subst s2. by apply IH.
Qed.

(** ** Steps of a run *)

Lemma run_bind {A B} (p : prog A) (f : A -> prog B) s :
  run (bind p f) s =
    match run p s with
    | Done (a, s') => run (f a) s'
    | Fault i => Fault i
    | OutOfFuel => OutOfFuel
    end.
Proof.
  revert s. induction p as [a|i k IH|i x k IH|]; intros s; simpl; try done.
  - destruct (at_pos s i); [apply IH|done].
  - destruct (at_pos s i); [apply IH|done].
Qed.

Lemma bind_Done {A B} (p : prog A) (f : A -> prog B) s a s' :
  run p s = Done (a, s') -> run (bind p f) s = run (f a) s'.
Proof. intros H. by rewrite run_bind, H. Qed.

Lemma bind_inv {A B} (p : prog A) (f : A -> prog B) s b s'' :
  run (bind p f) s = Done (b, s'') ->
  exists a s', run p s = Done (a, s') /\ run (f a) s' = Done (b, s'').
Proof.
  rewrite run_bind. destruct (run p s) as [[a s']| |] eqn:E; [|done..].
  intros H. by exists a, s'.
Qed.

Lemma load_Done i s : 0 <= i < len s -> run (load i) s = Done (get s i, s).
Proof. intros H. simpl. by rewrite (at_pos_get _ _ H). Qed.

Lemma store_Done i x s :
  0 <= i < len s -> run (store i x) s = Done (tt, <[Z.to_nat i := x]> s).
Proof. intros H. simpl. by rewrite (at_pos_get _ _ H). Qed.

Lemma iter_swap_Done l r s :
  0 <= l < len s -> 0 <= r < len s -> run (iter_swap l r) s = Done (tt, swapped s l r).
Proof.
  intros Hl Hr. unfold iter_swap.
  rewrite (bind_Done _ _ _ _ _ (load_Done l s Hl)).
  rewrite (bind_Done _ _ _ _ _ (load_Done r s Hr)).
  rewrite (bind_Done _ _ _ _ _ (store_Done l _ s Hl)).
  rewrite store_Done by (rewrite len_insert; lia). done.
Qed.

(** ** Where a run dereferences *)

Lemma within_mono {A} (P Q : Z -> Prop) (p : prog A) s :
  (forall i, P i -> Q i) -> within P p s -> within Q p s.
Proof.
  intros HPQ. induction 1; econstructor; eauto.
Qed.

Lemma within_bind {A B} P (p : prog A) (f : A -> prog B) s a s' :
  within P p s -> run p s = Done (a, s') -> within P (f a) s' -> within P (bind p f) s.
Proof.
  intros Hw. revert a s'. induction Hw as [a0 s|i k s x Hi Hx _ IH|i x k s Hi Hx _ IH];
    intros a s' R Hf; simpl in *.
  - by simplify_eq.
  - rewrite Hx in R. econstructor; eauto.
  - destruct Hx as [y Hy]. rewrite Hy in R. econstructor; eauto.
Qed.

Lemma within_load P i s : P i -> 0 <= i < len s -> within P (load i) s.
Proof.
  intros Hi Hb. eapply within_Load; [done|by apply at_pos_get|constructor].
Qed.

Lemma within_store P i x s : P i -> 0 <= i < len s -> within P (store i x) s.
Proof.
  intros Hi Hb. eapply within_Store; [done|by rewrite at_pos_get|constructor].
Qed.

Lemma within_iter_swap P l r s :
  P l -> P r -> 0 <= l < len s -> 0 <= r < len s -> within P (iter_swap l r) s.
Proof.
  intros Pl Pr Hl Hr. unfold iter_swap.
  eapply within_bind; [by apply within_load|by apply load_Done|].
  eapply within_bind; [by apply within_load|by apply load_Done|].
  eapply within_bind; [by apply within_store|by apply store_Done|].
  apply within_store; [done|by rewrite len_insert].
Qed.

(** ** The two scans *)

Lemma scan_up_spec fuel ref : forall l s p,
  0 <= l + 1 -> l < p -> p < len s -> ref <= get s p ->
  p - l <= Z.of_nat fuel ->
  exists l',
    run (scan_up fuel ref l) s = Done (l', s) /\
    l < l' <= p /\
    within (fun i => l < i <= l') (scan_up fuel ref l) s /\
    (forall i, l < i < l' -> get s i < ref) /\
    ref <= get s l'.
Proof.
  induction fuel as [|f IH]; intros l s p H0 Hlp Hp Hstop Hfuel; [lia|].
  cbn [scan_up].
  assert (0 <= l + 1 < len s) as Hin by lia.
  destruct (get s (l + 1) <? ref) eqn:E.
  - apply Z.ltb_lt in E.
    assert (l + 1 <> p) as Hne by (intros Heq; rewrite Heq in E; lia).
    destruct (IH (l + 1) s p) as (l' & Hrun & Hl' & Hw & Hlt & Hge); try lia.
    exists l'. split_and!; try lia; try done.
    + rewrite (bind_Done _ _ _ _ _ (load_Done _ _ Hin)).
      by rewrite (proj2 (Z.ltb_lt _ _) E).
    + eapply within_bind; [apply within_load; [lia|done]|by apply load_Done|].
      rewrite (proj2 (Z.ltb_lt _ _) E).
      eapply within_mono; [|exact Hw]. simpl. intros i Hi. lia.
    + intros i Hi. destruct (decide (i = l + 1)) as [->|]; [done|]. apply Hlt. lia.
  - exists (l + 1). apply Z.ltb_ge in E. split_and!; try lia; try done.
    + rewrite (bind_Done _ _ _ _ _ (load_Done _ _ Hin)).
      by rewrite (proj2 (Z.ltb_ge _ _) E).
    + eapply within_bind; [apply within_load; [lia|done]|by apply load_Done|].
      rewrite (proj2 (Z.ltb_ge _ _) E). constructor.
Qed.

Lemma scan_down_spec fuel ref : forall r s q,
  0 <= q -> q < r -> r - 1 < len s -> get s q <= ref ->
  r - q <= Z.of_nat fuel ->
  exists r',
    run (scan_down fuel ref r) s = Done (r', s) /\
    q <= r' < r /\
    within (fun i => r' <= i < r) (scan_down fuel ref r) s /\
    (forall i, r' < i < r -> ref < get s i) /\
    get s r' <= ref.
Proof.
  induction fuel as [|f IH]; intros r s q H0 Hqr Hr Hstop Hfuel; [lia|].
  cbn [scan_down].
  assert (0 <= r - 1 < len s) as Hin by lia.
  destruct (get s (r - 1) >? ref) eqn:E.
  - pose proof E as E'. rewrite Z.gtb_ltb in E'. apply Z.ltb_lt in E'.
    assert (r - 1 <> q) as Hne by (intros Heq; rewrite Heq in E'; lia).
    destruct (IH (r - 1) s q) as (r' & Hrun & Hr' & Hw & Hlt & Hge); try lia.
    exists r'. split_and!; try lia; try done.
    + rewrite (bind_Done _ _ _ _ _ (load_Done _ _ Hin)). by rewrite E.
    + eapply within_bind; [apply within_load; [lia|done]|by apply load_Done|].
      rewrite E. eapply within_mono; [|exact Hw]. simpl. intros i Hi. lia.
    + intros i Hi. destruct (decide (i = r - 1)) as [->|]; [done|]. apply Hlt. lia.
  - exists (r - 1). pose proof E as E'. rewrite Z.gtb_ltb in E'. apply Z.ltb_ge in E'.
    split_and!; try lia; try done.
    + rewrite (bind_Done _ _ _ _ _ (load_Done _ _ Hin)). by rewrite E.
    + eapply within_bind; [apply within_load; [lia|done]|by apply load_Done|].
      rewrite E. constructor.
Qed.

(** ** The partition loop *)

Section partition_loop.
Variables (b e ref : Z) (scans : nat).
Hypothesis Hb : 0 <= b.
Hypothesis Hscans : e - b <= Z.of_nat scans.

Lemma partition_loop_spec : forall fuel l r s,
  loop_inv b e ref s l r -> r - l <= Z.of_nat fuel ->
  exists m s',
    run (partition_loop scans fuel ref l r) s = Done (m, s') /\
    b <= m < e /\
    shuffles b e s s' /\
    within (range b e) (partition_loop scans fuel ref l r) s /\
    (forall i, b <= i <= m -> get s' i <= ref) /\
    (forall i, m < i < e -> ref <= get s' i).
Proof.
  induction fuel as [|f IH]; intros l r s [Hlen Hl Hlr Hr Hleft Hright Hup Hdown] Hfuel; [lia|].
  destruct Hup as (p & Hp1 & Hp2 & Hp3 & Hp4).
  destruct Hdown as (q & Hq1 & Hq2 & Hq3 & Hq4).
  destruct (scan_up_spec scans ref l s p) as (l' & Hrun1 & Hl' & Hw1 & Hlt & Hge);
    try lia; try done.
  destruct (scan_down_spec scans ref r s q) as (r' & Hrun2 & Hr' & Hw2 & Hgt & Hle);
    try lia; try done.
  assert (within (range b e) (scan_up scans ref l) s) as Hw1'.
  { eapply within_mono; [|exact Hw1]. unfold range. simpl. intros i Hi. lia. }
  assert (within (range b e) (scan_down scans ref r) s) as Hw2'.
  { eapply within_mono; [|exact Hw2]. unfold range. simpl. intros i Hi. lia. }
  cbn [partition_loop].
  rewrite (bind_Done _ _ _ _ _ Hrun1), (bind_Done _ _ _ _ _ Hrun2).
  destruct (l' >=? r') eqn:E.
  - (* the cursors met: return [r] *)
    pose proof E as E'. rewrite Z.geb_leb in E'. apply Z.leb_le in E'.
    exists r', s. split; [done|]. split_and!; try lia.
    + apply shuffles_refl.
    + eapply within_bind; [exact Hw1'|exact Hrun1|].
      eapply within_bind; [exact Hw2'|exact Hrun2|]. rewrite E. constructor.
    + intros i Hi.
      destruct (decide (i <= l)); [apply Hleft; lia|].
      destruct (decide (i = r')) as [->|]; [done|].
      apply Z.lt_le_incl, Hlt. lia.
    + intros i Hi.
      destruct (decide (r <= i)); [apply Hright; lia|].
      apply Z.lt_le_incl, Hgt. lia.
  - (* exchange and go round again *)
    pose proof E as E'. rewrite Z.geb_leb in E'. apply Z.leb_gt in E'.
    assert (run (iter_swap l' r') s = Done (tt, swapped s l' r')) as Hrun3
      by (apply iter_swap_Done; lia).
    rewrite (bind_Done _ _ _ _ _ Hrun3).
    destruct (IH l' r' (swapped s l' r')) as (m & s' & Hrun & Hm & Hsh & Hw & Hlo & Hhi).
    { split.
      - by rewrite len_swapped.
      - lia.
      - lia.
      - lia.
      - intros i Hi. rewrite get_swapped by lia.
        repeat case_decide; try lia.
        destruct (decide (i <= l)); [apply Hleft; lia|].
        apply Z.lt_le_incl, Hlt. lia.
      - intros i Hi. rewrite get_swapped by lia.
        repeat case_decide; try lia.
        destruct (decide (r <= i)); [apply Hright; lia|].
        apply Z.lt_le_incl, Hgt. lia.
      - exists r'. split_and!; try lia.
        rewrite get_swapped by lia. by rewrite decide_True.
      - exists l'. split_and!; try lia.
        rewrite get_swapped by lia.
        rewrite decide_False by lia. by rewrite decide_True. }
    { lia. }
    exists m, s'. split; [done|]. split_and!; try done; try lia.
    + eapply shuffles_trans; [|exact Hsh]. apply shuffles_swapped; lia.
    + eapply within_bind; [exact Hw1'|exact Hrun1|].
      eapply within_bind; [exact Hw2'|exact Hrun2|]. rewrite E.
      eapply within_bind; [|exact Hrun3|exact Hw].
      apply within_iter_swap; unfold range; lia.
Qed.
End partition_loop.

Lemma occurs_get s b e ref : occurs s b e ref -> exists p, b <= p < e /\ get s p = ref.
Proof. intros (p & Hp & E). exists p. split; [done|]. unfold get. by rewrite E. Qed.

Lemma partition_spec fuel b e ref s :
  0 <= b -> b < e -> e <= len s -> occurs s b e ref ->
  e - b < Z.of_nat fuel ->
  exists m s',
    run (partition fuel b e ref) s = Done (m, s') /\
    b <= m < e /\
    shuffles b e s s' /\
    within (range b e) (partition fuel b e ref) s /\
    (forall i, b <= i <= m -> get s' i <= ref) /\
    (forall i, m < i < e -> ref <= get s' i).
Proof.
  intros Hb Hbe He (p & Hp & Hpiv)%occurs_get Hfuel.
  unfold partition. rewrite Z.geb_leb, (proj2 (Z.leb_gt _ _)) by lia.
  apply (partition_loop_spec b e ref fuel); [lia|lia| |lia].
  split; try lia.
  - exists p. split_and!; lia.
  - exists p. split_and!; lia.
Qed.

(** ** The sequential sort: runs to completion inside its range *)

Lemma midpoint_in_range b e : b < e -> b <= b + Z.quot (e - b) 2 < e.
Proof.
  intros H. pose proof (Z.quot_pos (e - b) 2 ltac:(lia) ltac:(lia)).
  pose proof (Z.quot_lt (e - b) 2 ltac:(lia) ltac:(lia)). lia.
Qed.

(** Pivot selection followed by [partition], as both sorts do it. *)
Lemma pivot_partition fuel b e s :
  0 <= b -> b < e -> e <= len s -> e - b < Z.of_nat fuel ->
  exists m s',
    b <= m < e /\ shuffles b e s s' /\
    forall A (k : Z -> prog A),
      run (let* ref := load (b + Z.quot (e - b) 2) in
           let* m := partition fuel b e ref in k m) s = run (k m) s' /\
      (within (range b e) (k m) s' ->
       within (range b e) (let* ref := load (b + Z.quot (e - b) 2) in
                           let* m := partition fuel b e ref in k m) s).
Proof.
  intros Hb Hbe He Hfuel. pose proof (midpoint_in_range b e Hbe) as Hmid.
  set (mid := b + Z.quot (e - b) 2) in *.
  destruct (partition_spec fuel b e (get s mid) s)
    as (m & s' & Hrun & Hm & Hsh & Hw & _); try lia.
  { exists mid. split; [lia|]. apply at_pos_get. lia. }
  assert (run (load mid) s = Done (get s mid, s)) as Hload by (apply load_Done; lia).
  exists m, s'. split_and!; try lia; try done.
  intros A k. split.
  - by rewrite (bind_Done _ _ _ _ _ Hload), (bind_Done _ _ _ _ _ Hrun).
  - intros Hk. eapply within_bind; [apply within_load; [done|lia]|exact Hload|].
    eapply within_bind; [exact Hw|exact Hrun|exact Hk].
Qed.

Lemma quicksort_spec fuel : forall b e s,
  0 <= b -> b <= e -> e <= len s -> e - b < Z.of_nat fuel ->
  exists s',
    run (quicksort fuel b e) s = Done (tt, s') /\
    shuffles b e s s' /\
    within (range b e) (quicksort fuel b e) s.
Proof.
  induction fuel as [|f IH]; intros b e s Hb Hbe He Hfuel; [lia|].
  cbn [quicksort]. destruct (b <? e) eqn:E.
  - apply Z.ltb_lt in E.
    destruct (pivot_partition (S f) b e s) as (m & s1 & Hm & T1 & Hpp); try done.
    destruct (Hpp _ (fun m => quicksort f b m >> quicksort f (m + 1) e)) as [-> Hw].
    pose proof (shuffles_len _ _ _ _ T1) as L1.
    destruct (IH b m s1) as (s2 & R2 & T2 & W2); try lia.
    pose proof (shuffles_len _ _ _ _ T2) as L2.
    destruct (IH (m + 1) e s2) as (s3 & R3 & T3 & W3); try lia.
    exists s3. rewrite (bind_Done _ _ _ _ _ R2). split; [done|]. split.
    + eapply shuffles_trans; [exact T1|]. eapply shuffles_trans.
      * eapply shuffles_mono; [| |exact T2]; lia.
      * eapply shuffles_mono; [| |exact T3]; lia.
    + apply Hw. eapply within_bind; [|exact R2|].
      * eapply within_mono; [|exact W2]. unfold range. simpl. intros i Hi. lia.
      * eapply within_mono; [|exact W3]. unfold range. simpl. intros i Hi. lia.
  - exists s. split; [done|]. split; [apply shuffles_refl|constructor].
Qed.

(** ** Footprints

    A run confined to [P] changes the vector at positions of [P] only, and
    depends on the vector at positions of [P] only. *)

Lemma agree_at_pos P s1 s2 i :
  agree P s1 s2 -> P i -> at_pos s2 i = at_pos s1 i.
Proof.
  intros [Hl Hg] Hi. destruct (decide (0 <= i < len s1)) as [Hb|Hb].
  - rewrite !at_pos_get by (unfold len in *; lia). by rewrite Hg.
  - rewrite !at_pos_None; [done|done|unfold len in *; lia].
Qed.

Lemma agree_insert P s1 s2 i x :
  agree P s1 s2 -> is_Some (at_pos s1 i) ->
  agree P (<[Z.to_nat i := x]> s1) (<[Z.to_nat i := x]> s2).
Proof.
  intros [Hl Hg] [y Hy]. apply at_pos_Some in Hy. split.
  - by rewrite !length_insert.
  - intros j Hj. rewrite !get_insert by (unfold len in *; lia).
    case_decide; [done|by apply Hg].
Qed.

Lemma within_run {A} P (p : prog A) s :
  within P p s ->
  exists x s',
    run p s = Done (x, s') /\
    length s' = length s /\
    (forall i, ~ P i -> get s' i = get s i) /\
    forall s2, agree P s s2 ->
      within P p s2 /\ exists s2', run p s2 = Done (x, s2') /\ agree P s' s2'.
Proof.
  induction 1 as [a s|i k s x Hi Hx _ IH|i x k s Hi Hx _ IH]; simpl.
  - exists a, s. split_and!; try done. intros s2 Hag. split; [constructor|by exists s2].
  - destruct IH as (y & s' & R & L & F & Loc). rewrite Hx.
    exists y, s'. split_and!; try done. intros s2 Hag.
    assert (at_pos s2 i = Some x) as Hx2 by (by rewrite (agree_at_pos _ _ _ _ Hag Hi)).
    destruct (Loc s2 Hag) as (W2 & s2' & R2 & Hag2). rewrite Hx2. split.
    + by eapply within_Load.
    + by exists s2'.
  - destruct IH as (y & s' & R & L & F & Loc). destruct Hx as [z Hz]. rewrite Hz.
    pose proof (at_pos_Some _ _ _ Hz) as Hb.
    exists y, s'. split_and!; try done.
    + by rewrite L, length_insert.
    + intros j Hj. rewrite F by done. rewrite get_insert by done.
      rewrite decide_False; [done|]. by intros ->.
    + intros s2 Hag.
      assert (at_pos s2 i = Some z) as Hx2 by (by rewrite (agree_at_pos _ _ _ _ Hag Hi)).
      destruct (Loc (<[Z.to_nat i := x]> s2)) as (W2 & s2' & R2 & Hag2).
      { apply agree_insert; [done|by rewrite Hz]. }
      rewrite Hx2. split.
      * eapply within_Store; [done|by rewrite Hx2|done].
      * by exists s2'.
Qed.

(** Stores outside [P] do not disturb a run confined to [P]. *)
Lemma within_insert_out {A} P (p : prog A) s j v :
  ~ P j -> is_Some (at_pos s j) -> within P p s -> within P p (<[Z.to_nat j := v]> s).
Proof.
  intros Hj [y Hy] Hw. apply at_pos_Some in Hy.
  destruct (within_run _ _ _ Hw) as (x & s' & _ & _ & _ & Loc).
  apply Loc. split; [by rewrite length_insert|]. intros i Hi.
  rewrite get_insert by done. rewrite decide_False; [done|].
  intros Heq. apply Hj. by rewrite <- Heq.
Qed.

Lemma at_pos_ext s s' i :
  length s' = length s -> get s' i = get s i -> at_pos s' i = at_pos s i.
Proof.
  intros Hl Hg. destruct (decide (0 <= i < len s)) as [Hi|Hi].
  - rewrite !at_pos_get by (unfold len in *; lia). by rewrite Hg.
  - rewrite !at_pos_None; [done|done|unfold len in *; lia].
Qed.

(** ** Interleaving two tasks

    Two tasks confined to disjoint sets of positions: whatever the
    interleaving, the forked run stays inside the union of the two sets and
    ends as the run of the first task followed by the second. *)

Section interleaving.
Variables P Q : Z -> Prop.
Hypothesis Hdisj : forall i, P i -> Q i -> False.
Hypothesis HdecP : forall i, P i \/ ~ P i.

Lemma parallel_invoke_sequential sch : forall (p q : prog unit) s,
  within P p s -> within Q q s ->
  within (fun i => P i \/ Q i) (parallel_invoke sch p q) s /\
  run (parallel_invoke sch p q) s = run (p >> q) s.
Proof.
  induction sch as [|[] sch IH]; intros p q s Hp Hq.
  - (* the interleaving is used up *)
    split; [|done]. simpl.
    destruct (within_run _ _ _ Hp) as (x & s1 & R & L & F & _).
    eapply within_bind; [|exact R|].
    + eapply within_mono; [|exact Hp]. auto.
    + destruct (within_run _ _ _ Hq) as (y & s2 & _ & _ & _ & Loc).
      destruct (Loc s1) as [W _].
      { split; [done|]. intros i Hi. symmetry. apply F. intros HP. by apply (Hdisj i). }
      eapply within_mono; [|exact W]. auto.
  - (* the first task moves *)
    destruct Hp as [a s|i k s x Hi Hx Hk|i x k s Hi Hx Hk]; simpl.
    + split; [|done]. eapply within_mono; [|exact Hq]. auto.
    + destruct (IH (k x) q s Hk Hq) as [W R]. split.
      * eapply within_Load; [by left|exact Hx|exact W].
      * by rewrite Hx.
    + assert (within Q q (<[Z.to_nat i := x]> s)) as Hq'.
      { apply within_insert_out; [|done|done]. intros HQ. by apply (Hdisj i). }
      destruct (IH k q _ Hk Hq') as [W R]. split.
      * eapply within_Store; [by left|exact Hx|exact W].
      * destruct Hx as [y ->]. done.
  - (* the second task moves *)
    destruct (within_run _ _ _ Hp) as (u & s1 & R1 & L1 & F1 & Loc1).
    destruct Hq as [a s|j k s y Hj Hy Hk|j v k s Hj Hy Hk]; simpl.
    + split; [eapply within_mono; [|exact Hp]; auto|].
      rewrite run_bind, R1. simpl. by destruct u, a.
    + destruct (IH p (k y) s Hp Hk) as [W R]. split.
      * eapply within_Load; [by right|exact Hy|exact W].
      * rewrite Hy, R, !run_bind, R1. simpl.
        assert (at_pos s1 j = Some y) as ->; [|done].
        rewrite <- Hy. apply at_pos_ext; [done|]. apply F1. intros HP. by apply (Hdisj j).
    + assert (~ P j) as HnP by (intros HP; by apply (Hdisj j)).
      assert (within P p (<[Z.to_nat j := v]> s)) as Hp'
        by (by apply within_insert_out).
      destruct (IH p k _ Hp' Hk) as [W R]. split.
      * eapply within_Store; [by right|exact Hy|exact W].
      * destruct Hy as [z Hz]. pose proof (at_pos_Some _ _ _ Hz) as Hb.
        rewrite Hz, R, !run_bind, R1. simpl.
        destruct (within_run _ _ _ Hp') as (u2 & s2 & R2 & L2 & F2 & _).
        rewrite R2.
        assert (at_pos s1 j = Some (get s1 j)) as ->
          by (apply at_pos_get; unfold len in *; lia).
        destruct (Loc1 (<[Z.to_nat j := v]> s)) as (_ & s2' & R2' & [_ Hag]).
        { split; [by rewrite length_insert|]. intros i Hi.
          rewrite get_insert by done. rewrite decide_False; [done|].
          intros Heq. apply HnP. by rewrite <- Heq. }
        rewrite R2 in R2'. injection R2' as -> ->.
        f_equal. apply vec_ext; [by rewrite length_insert, L2, L1, length_insert|].
        intros i _. rewrite get_insert by (unfold len in *; lia).
        destruct (HdecP i) as [HP|HP].
        -- rewrite <- Hag by done. rewrite decide_False; [done|].
           intros Heq. apply HnP. by rewrite <- Heq.
        -- rewrite F2 by done. rewrite get_insert by done.
           case_decide; [done|]. symmetry. by apply F1.
Qed.
End interleaving.

(** ** The parallel sort computes what the sequential sort computes *)

Lemma range_dec b e i : range b e i \/ ~ range b e i.
Proof. unfold range. lia. Qed.

Lemma parallel_sequential sched fuel : forall g b e s,
  0 <= b -> b <= e -> e <= len s -> e - b < Z.of_nat fuel ->
  within (range b e) (parallelQuicksort sched fuel g b e) s /\
  run (parallelQuicksort sched fuel g b e) s = run (quicksort fuel b e) s.
Proof.
  induction fuel as [|f IH]; intros g b e s Hb Hbe He Hfuel; [lia|].
  destruct (quicksort_spec (S f) b e s) as (s' & Rq & _ & Wq); try done.
  cbn [parallelQuicksort]. destruct (b <? e) eqn:E.
  2:{ split; [constructor|]. cbn [quicksort]. by rewrite E. }
  destruct (e - b <=? Z.of_N g); [done|].
  apply Z.ltb_lt in E. clear Rq Wq s'.
  cbn [quicksort]. rewrite (proj2 (Z.ltb_lt _ _) E).
  destruct (pivot_partition (S f) b e s) as (m & s1 & Hm & T1 & Hpp); try done.
  pose proof (shuffles_len _ _ _ _ T1) as L1.
  destruct (Hpp _ (fun m => quicksort f b m >> quicksort f (m + 1) e)) as [-> _].
  destruct (Hpp _ (fun m => parallel_invoke (sched b e)
              (parallelQuicksort sched f default_granularity b m)
              (parallelQuicksort sched f default_granularity (m + 1) e))) as [-> Hw].
  destruct (IH default_granularity b m s1) as [W1 R1]; try lia.
  destruct (IH default_granularity (m + 1) e s1) as [W2 _]; try lia.
  destruct (parallel_invoke_sequential (range b m) (range (m + 1) e)
              ltac:(unfold range; lia) (range_dec b m) (sched b e) _ _ s1 W1 W2)
    as [W R].
  split.
  - apply Hw. eapply within_mono; [|exact W]. unfold range. simpl. intros i Hi. lia.
  - rewrite R, !run_bind, R1.
    destruct (quicksort_spec f b m s1) as (s2 & -> & T2 & _); try lia.
    pose proof (shuffles_len _ _ _ _ T2) as L2.
    apply IH; lia.
Qed.

Lemma parallelQuicksort_spec sched fuel g b e s :
  0 <= b -> b <= e -> e <= len s -> e - b < Z.of_nat fuel ->
  exists s',
    run (parallelQuicksort sched fuel g b e) s = Done (tt, s') /\
    shuffles b e s s' /\
    within (range b e) (parallelQuicksort sched fuel g b e) s.
Proof.
  intros Hb Hbe He Hfuel.
  destruct (parallel_sequential sched fuel g b e s) as [W R]; try done.
  destruct (quicksort_spec fuel b e s) as (s' & Rq & T & _); try done.
  exists s'. by rewrite R.
Qed.

(** ** More fuel never changes a finished run *)

Lemma bind_mono {A B} (p p' : prog A) (k k' : A -> prog B) s r :
  (forall r1, run p s = Done r1 -> run p' s = Done r1) ->
  (forall a s1 r2, run (k a) s1 = Done r2 -> run (k' a) s1 = Done r2) ->
  run (bind p k) s = Done r -> run (bind p' k') s = Done r.
Proof.
  intros Hp Hk. destruct r as [x s'']. intros (a & s1 & R1 & R2)%bind_inv.
  rewrite (bind_Done _ _ _ _ _ (Hp _ R1)). by apply Hk.
Qed.

Lemma scan_up_mono ref fuel : forall fuel' l s r,
  run (scan_up fuel ref l) s = Done r -> (fuel <= fuel')%nat ->
  run (scan_up fuel' ref l) s = Done r.
Proof.
  induction fuel as [|f IH]; intros [|f'] l s r H Hle; try done; [lia|].
  revert H. cbn [scan_up]. apply bind_mono; [done|].
  intros x s1 r2. destruct (x <? ref); [|done]. intros H. apply (IH f'); [done|lia].
Qed.

Lemma scan_down_mono ref fuel : forall fuel' r s res,
  run (scan_down fuel ref r) s = Done res -> (fuel <= fuel')%nat ->
  run (scan_down fuel' ref r) s = Done res.
Proof.
  induction fuel as [|f IH]; intros [|f'] r s res H Hle; try done; [lia|].
  revert H. cbn [scan_down]. apply bind_mono; [done|].
  intros x s1 r2. destruct (x >? ref); [|done]. intros H. apply (IH f'); [done|lia].
Qed.

Lemma partition_loop_mono ref scans scans' fuel : forall fuel' l r s res,
  run (partition_loop scans fuel ref l r) s = Done res ->
  (scans <= scans')%nat -> (fuel <= fuel')%nat ->
  run (partition_loop scans' fuel' ref l r) s = Done res.
Proof.
  induction fuel as [|f IH]; intros [|f'] l r s res H Hs Hle; try done; [lia|].
  revert H. cbn [partition_loop]. apply bind_mono.
  { intros r1 H. by apply (scan_up_mono _ scans). }
  intros l' s1 r2. apply bind_mono.
  { intros r1 H. by apply (scan_down_mono _ scans). }
  intros r' s2 r3. destruct (l' >=? r'); [done|]. apply bind_mono; [done|].
  intros _ s3 r4 H. apply (IH f'); [done|done|lia].
Qed.

Lemma partition_mono fuel fuel' b e ref s res :
  run (partition fuel b e ref) s = Done res -> (fuel <= fuel')%nat ->
  run (partition fuel' b e ref) s = Done res.
Proof.
  unfold partition. destruct (b >=? e); [done|]. intros H Hle.
  by apply (partition_loop_mono _ fuel fuel' fuel).
Qed.

Lemma quicksort_mono fuel : forall fuel' b e s res,
  run (quicksort fuel b e) s = Done res -> (fuel <= fuel')%nat ->
  run (quicksort fuel' b e) s = Done res.
Proof.
  induction fuel as [|f IH]; intros [|f'] b e s res H Hle; try done; [lia|].
  revert H. cbn [quicksort]. destruct (b <? e); [|done]. apply bind_mono; [done|].
  intros ref s1 r1. apply bind_mono.
  { intros r2 H. apply (partition_mono (S f)); [done|lia]. }
  intros m s2 r2. apply bind_mono.
  { intros r3 H. apply (IH f'); [done|lia]. }
  intros _ s3 r3 H. apply (IH f'); [done|lia].
Qed.

Lemma result_Done {A} (o : outcome (A * list Z)) out :
  result o = Done out <-> exists a, o = Done (a, out).
Proof.
  destruct o as [[a s]| |]; simpl; split; try done.
  - intros [= <-]. by exists a.
  - by intros (a' & [= <- <-]).
  - by intros (? & ?).
  - by intros (? & ?).
Qed.

Lemma sort_mono fuel fuel' s out :
  sort fuel s = Done out -> (fuel <= fuel')%nat -> sort fuel' s = Done out.
Proof.
  unfold sort. intros (a & R)%result_Done Hle.
  by rewrite (quicksort_mono _ _ _ _ _ _ R Hle).
Qed.

(** ** Whole-vector corollaries *)

Lemma shuffles_confined {A} b e (p : prog A) s x s' :
  run p s = Done (x, s') -> shuffles b e s s' -> within (range b e) p s ->
  confined b e p s.
Proof.
  intros R Hsh W. split; [done|]. exists x, s'. split_and!; try done.
  - by eapply shuffles_length.
  - intros i Hi. apply at_pos_ext; [by eapply shuffles_length|by eapply shuffles_frame].
Qed.

Lemma nondescending_short (s : list Z) : (length s <= 1)%nat -> nondescending s.
Proof.
  intros Hl i x y _ Hy%lookup_lt_Some. lia.
Qed.

Lemma sort_shuffles fuel s :
  len s < Z.of_nat fuel -> exists out, sort fuel s = Done out /\ shuffles 0 (len s) s out.
Proof.
  intros Hfuel. destruct (quicksort_spec fuel 0 (len s) s) as (s' & R & Hsh & _);
    try lia; [unfold len; lia|].
  exists s'. unfold sort. by rewrite R.
Qed.

Lemma parallelSort_sort sched fuel g s :
  len s < Z.of_nat fuel -> parallelSort sched fuel g s = sort fuel s.
Proof.
  intros Hfuel.
  destruct (parallel_sequential sched fuel g 0 (len s) s) as [_ R];
    try lia; [unfold len; lia|].
  unfold parallelSort, sort. by rewrite R.
Qed.

Lemma parallelQuicksort_delegates sched fuel g b e :
  e - b <= Z.of_N g -> parallelQuicksort sched fuel g b e = quicksort fuel b e.
Proof.
  intros Hg. destruct fuel as [|f]; [done|].
  cbn [parallelQuicksort]. rewrite (proj2 (Z.leb_le _ _) Hg).
  destruct (b <? e) eqn:E; [done|]. cbn [quicksort]. by rewrite E.
Qed.

(** ** Worked runs *)

Example partition_all_equal :
  run (partition 5 0 4 4) [4; 4; 4; 4] = Done (1, [4; 4; 4; 4]).
Proof. by vm_compute. Qed.

Example sort_all_equal : sort 5 [4; 4; 4; 4] = Done [4; 4; 4; 4].
Proof. by vm_compute. Qed.

Example sort_empty : sort 1 [] = Done [].
Proof. by vm_compute. Qed.

Example sort_single : sort 2 [7] = Done [7].
Proof. by vm_compute. Qed.

Example partition_4_5_3 : run (partition 4 0 3 5) [4; 5; 3] = Done (1, [4; 3; 5]).
Proof. by vm_compute. Qed.

Example spec_sort_4_5_3 : spec_sort 4 [4; 5; 3] = Done [3; 4; 5].
Proof. by vm_compute. Qed.

(** On [[1; 2]] the pivot is [2] and [partition] returns the last position,
    so the left subrange of the documented procedure is the whole range
    again: that procedure never returns, whatever the fuel. *)
Lemma partition_1_2 fuel :
  run (partition fuel 0 2 2) [1; 2] = OutOfFuel \/
  run (partition fuel 0 2 2) [1; 2] = Done (1, [1; 2]).
Proof.
  destruct fuel as [|[|fuel]]; [by left|by left|].
  right. apply (partition_mono 2); [by vm_compute|lia].
Qed.

Lemma spec_sort_1_2 fuel : spec_sort fuel [1; 2] = OutOfFuel.
Proof.
  unfold spec_sort. change (len [1; 2]) with 2.
  enough (run (spec_quicksort fuel 0 2) [1; 2] = OutOfFuel) as -> by done.
  induction fuel as [|f IH]; [done|].
  cbn [spec_quicksort]. change (2 - 0 <=? 1) with false. cbv iota.
  change (0 + Z.quot (2 - 0) 2) with 1.
  rewrite (bind_Done _ _ _ _ _ (load_Done 1 [1; 2] ltac:(by vm_compute))).
  change (get [1; 2] 1) with 2. rewrite run_bind.
  destruct (partition_1_2 (S f)) as [->| ->]; [done|].
  change (1 + 1) with 2. by rewrite run_bind, IH.
Qed.

(** ** The claims *)

(** C1 (order property): it fails on the code.  On [[4; 5; 3]] the pivot
    is [5], [partition] leaves [[4; 3; 5]] and returns the split 1; the
    recursive calls are on [[0, 1)] and [[2, 3)], so position 1 is never
    compared with position 0, and both sorts return [[4; 3; 5]], which is
    not non-descending.  This holds for every fuel that lets the run
    finish, every interleaving and every granularity. *)
Theorem sort_4_5_3_unsorted (k : nat) (sched : Z -> Z -> list bool) (g : N) :
  sort (4 + k) [4; 5; 3] = Done [4; 3; 5] /\
  parallelSort sched (4 + k) g [4; 5; 3] = Done [4; 3; 5] /\
  ~ nondescending [4; 3; 5].
Proof.
  assert (sort (4 + k) [4; 5; 3] = Done [4; 3; 5]) as Hs.
  { apply (sort_mono 4); [by vm_compute|lia]. }
  split; [done|]. split.
  - rewrite parallelSort_sort; [done|]. unfold len. simpl. lia.
  - intros H. specialize (H 0%nat 4 3 eq_refl eq_refl). lia.
Qed.

(** C2 (permutation property): for every input sequence, [quicksort] and
    [parallelQuicksort] on the whole vector finish, and the vector they
    leave is a permutation of the input. *)
Theorem sort_is_permutation (s : list Z) (sched : Z -> Z -> list bool) (g : N)
    (fuel : nat) :
  len s < Z.of_nat fuel ->
  (exists out, sort fuel s = Done out /\ out ≡ₚ s) /\
  (exists out, parallelSort sched fuel g s = Done out /\ out ≡ₚ s).
Proof.
  intros Hfuel. split.
  - destruct (sort_shuffles fuel s Hfuel) as (out & R & Hsh).
    exists out. split; [done|]. by eapply shuffles_perm.
  - destruct (parallelQuicksort_spec sched fuel g 0 (len s) s)
      as (s' & R & Hsh & _); try lia; [unfold len; lia|].
    exists s'. unfold parallelSort. rewrite R. split; [done|].
    by eapply shuffles_perm.
Qed.

Lemma sort_is_permutation_witness :
  len [3; 1; 2; 1] < Z.of_nat 5 /\
  (exists out, sort 5 [3; 1; 2; 1] = Done out /\ out ≡ₚ [3; 1; 2; 1]) /\
  (exists out, parallelSort (fun _ _ => [false; true; false]) 5 2 [3; 1; 2; 1] = Done out /\
               out ≡ₚ [3; 1; 2; 1]).
Proof.
  split; [by vm_compute|].
  apply (sort_is_permutation [3; 1; 2; 1] (fun _ _ => [false; true; false]) 2 5).
  by vm_compute.
Defined.

(** C3 (sequential/parallel equivalence): for every input, every
    interleaving of the forked tasks and every granularity (zero
    included), [parallelQuicksort] leaves the very vector [quicksort]
    leaves; and on a range no longer than the granularity it is
    [quicksort] itself. *)
Theorem parallel_matches_sequential (s : list Z) (sched : Z -> Z -> list bool) (g : N)
    (fuel : nat) :
  len s < Z.of_nat fuel ->
  (exists out, sort fuel s = Done out /\ parallelSort sched fuel g s = Done out) /\
  (forall b e, e - b <= Z.of_N g ->
     parallelQuicksort sched fuel g b e = quicksort fuel b e).
Proof.
  intros Hfuel. split.
  - destruct (sort_shuffles fuel s Hfuel) as (out & R & _).
    exists out. split; [done|]. by rewrite parallelSort_sort.
  - intros b e Hg. by apply parallelQuicksort_delegates.
Qed.

Lemma parallel_matches_sequential_witness :
  len [5; 3; 8; 1; 9; 2] < Z.of_nat 7 /\
  (exists out,
     sort 7 [5; 3; 8; 1; 9; 2] = Done out /\
     parallelSort (fun b _ => [false; Z.even b; true; false; false]) 7 1
       [5; 3; 8; 1; 9; 2] = Done out) /\
  (forall b e, e - b <= Z.of_N 1 ->
     parallelQuicksort (fun b _ => [false; Z.even b; true; false; false]) 7 1 b e =
       quicksort 7 b e).
Proof.
  split; [by vm_compute|].
  apply (parallel_matches_sequential [5; 3; 8; 1; 9; 2]
           (fun b _ => [false; Z.even b; true; false; false]) 1 7).
  by vm_compute.
Defined.

(** C4 (partition postcondition): on a non-empty range [[b, e)] inside
    the vector and a pivot that occurs in the range, [partition] returns a
    split [m] with [b <= m < e]; afterwards every element of [[b, m]] is
    at most the pivot and every element of [(m, e)] is at least the pivot. *)
Theorem partition_postcondition (fuel : nat) (b e ref : Z) (s : list Z) :
  0 <= b -> b < e -> e <= len s -> occurs s b e ref ->
  e - b < Z.of_nat fuel ->
  exists m s',
    run (partition fuel b e ref) s = Done (m, s') /\
    b <= m < e /\
    (forall i, b <= i <= m -> exists x, at_pos s' i = Some x /\ x <= ref) /\
    (forall i, m < i < e -> exists x, at_pos s' i = Some x /\ ref <= x).
Proof.
  intros Hb Hbe He Hocc Hfuel.
  destruct (partition_spec fuel b e ref s) as (m & s' & R & Hm & T & _ & Hlo & Hhi);
    try done.
  pose proof (shuffles_len _ _ _ _ T) as L.
  exists m, s'. split_and!; try done; try lia.
  - intros i Hi. exists (get s' i). split; [apply at_pos_get; lia|by apply Hlo].
  - intros i Hi. exists (get s' i). split; [apply at_pos_get; lia|by apply Hhi].
Qed.

Lemma partition_postcondition_witness :
  occurs [7; 4; 5; 3; 9] 1 4 5 /\
  exists m s',
    run (partition 4 1 4 5) [7; 4; 5; 3; 9] = Done (m, s') /\
    1 <= m < 4 /\
    (forall i, 1 <= i <= m -> exists x, at_pos s' i = Some x /\ x <= 5) /\
    (forall i, m < i < 4 -> exists x, at_pos s' i = Some x /\ 5 <= x).
Proof.
  assert (occurs [7; 4; 5; 3; 9] 1 4 5) as Hocc.
  { exists 2. split; [lia|reflexivity]. }
  split; [exact Hocc|].
  apply (partition_postcondition 4 1 4 5 [7; 4; 5; 3; 9]);
    [lia|lia|by vm_compute|exact Hocc|by vm_compute].
Defined.

(** C5 (the scans end inside the range): on a range inside the vector and
    a pivot that occurs in it, [partition] neither faults nor runs out of
    fuel, and every position it dereferences lies in [[b, e)].  In the
    first round the left cursor stops at or before the pivot's position and
    the right cursor at or after it, both without leaving the range.  Equal
    elements are not a special case. *)
Theorem partition_scans_stay_in_range (fuel : nat) (b e ref : Z) (s : list Z) :
  0 <= b -> e <= len s -> occurs s b e ref ->
  e - b < Z.of_nat fuel ->
  (exists m s', run (partition fuel b e ref) s = Done (m, s')) /\
  within (range b e) (partition fuel b e ref) s /\
  (forall p, b <= p < e -> at_pos s p = Some ref ->
     exists l1 r1,
       run (scan_up fuel ref (b - 1)) s = Done (l1, s) /\ b <= l1 <= p /\
       within (range b e) (scan_up fuel ref (b - 1)) s /\
       run (scan_down fuel ref e) s = Done (r1, s) /\ p <= r1 < e /\
       within (range b e) (scan_down fuel ref e) s).
Proof.
  intros Hb He Hocc Hfuel.
  assert (b < e) as Hbe by (destruct Hocc as (p & ? & _); lia).
  destruct (partition_spec fuel b e ref s) as (m & s' & R & _ & _ & W & _); try done.
  split_and!; [by exists m, s'|done|].
  intros p Hp Hpiv.
  assert (get s p = ref) as Hg by (unfold get; by rewrite Hpiv).
  destruct (scan_up_spec fuel ref (b - 1) s p) as (l1 & R1 & Hl1 & W1 & _); try lia.
  destruct (scan_down_spec fuel ref e s p) as (r1 & R2 & Hr1 & W2 & _); try lia.
  exists l1, r1. split_and!; try done; try lia.
  - eapply within_mono; [|exact W1]. unfold range. simpl. intros i Hi. lia.
  - eapply within_mono; [|exact W2]. unfold range. simpl. intros i Hi. lia.
Qed.

Lemma partition_scans_stay_in_range_witness :
  occurs [4; 4; 4; 4] 0 4 4 /\
  (exists m s', run (partition 5 0 4 4) [4; 4; 4; 4] = Done (m, s')) /\
  within (range 0 4) (partition 5 0 4 4) [4; 4; 4; 4] /\
  (forall p, 0 <= p < 4 -> at_pos [4; 4; 4; 4] p = Some 4 ->
     exists l1 r1,
       run (scan_up 5 4 (0 - 1)) [4; 4; 4; 4] = Done (l1, [4; 4; 4; 4]) /\
       0 <= l1 <= p /\
       within (range 0 4) (scan_up 5 4 (0 - 1)) [4; 4; 4; 4] /\
       run (scan_down 5 4 4) [4; 4; 4; 4] = Done (r1, [4; 4; 4; 4]) /\
       p <= r1 < 4 /\
       within (range 0 4) (scan_down 5 4 4) [4; 4; 4; 4]).
Proof.
  assert (occurs [4; 4; 4; 4] 0 4 4) as Hocc.
  { exists 2. split; [lia|reflexivity]. }
  split; [exact Hocc|].
  apply (partition_scans_stay_in_range 5 0 4 4 [4; 4; 4; 4]);
    [lia|by vm_compute|exact Hocc|by vm_compute].
Defined.

(** C6 (the steps of the sequential sort): it fails on the code.  The
    procedure of the design document recurses on [[begin, m]] and on what
    lies after [m]; [quicksort] recurses on [[begin, m)] and [[m + 1, end)],
    so position [m] is in neither call.  On [[4; 5; 3]] the documented
    procedure gives [[3; 4; 5]], the code [[4; 3; 5]]. *)
Theorem quicksort_skips_split (k : nat) :
  sort (4 + k) [4; 5; 3] = Done [4; 3; 5] /\
  spec_sort 4 [4; 5; 3] = Done [3; 4; 5] /\
  run (partition 4 0 3 5) [4; 5; 3] = Done (1, [4; 3; 5]) /\
  run (quicksort 3 0 1 >> quicksort 3 2 3) [4; 3; 5] = Done (tt, [4; 3; 5]) /\
  run (spec_quicksort 3 0 2 >> spec_quicksort 3 2 3) [4; 3; 5] = Done (tt, [3; 4; 5]).
Proof.
  split; [apply (sort_mono 4); [by vm_compute|lia]|].
  split_and!; by vm_compute.
Qed.

(** C7 (termination): on a range inside the vector, the split [m] that
    [partition] returns for a pivot of the range satisfies [b <= m < e],
    the two ranges [[b, m)] and [[m + 1, e)] the sorts recurse on are
    strictly shorter than [[b, e)], the midpoint value is such a pivot, and
    [quicksort] and [parallelQuicksort] both run to completion. *)
Theorem split_shrinks_and_sorts_terminate (sched : Z -> Z -> list bool) (g : N)
    (fuel : nat) (b e : Z) (s : list Z) :
  0 <= b -> b <= e -> e <= len s -> e - b < Z.of_nat fuel ->
  (forall ref, occurs s b e ref ->
     exists m s1, run (partition fuel b e ref) s = Done (m, s1) /\
       b <= m < e /\ m - b < e - b /\ e - (m + 1) < e - b) /\
  (b < e -> occurs s b e (get s (b + Z.quot (e - b) 2))) /\
  (exists s', run (quicksort fuel b e) s = Done (tt, s')) /\
  (exists s', run (parallelQuicksort sched fuel g b e) s = Done (tt, s')).
Proof.
  intros Hb Hbe He Hfuel. split_and!.
  - intros ref Hocc.
    assert (b < e) as Hlt by (destruct Hocc as (p & ? & _); lia).
    destruct (partition_spec fuel b e ref s) as (m & s1 & R & Hm & _); try done.
    exists m, s1. split; [done|]. lia.
  - intros Hlt. pose proof (midpoint_in_range b e Hlt).
    eexists. split; [eassumption|]. apply at_pos_get. lia.
  - destruct (quicksort_spec fuel b e s) as (s' & R & _); try done. by exists s'.
  - destruct (parallelQuicksort_spec sched fuel g b e s) as (s' & R & _); try done.
    by exists s'.
Qed.

Lemma split_shrinks_and_sorts_terminate_witness :
  (forall ref, occurs [2; 9; 4; 4; 1] 0 5 ref ->
     exists m s1, run (partition 6 0 5 ref) [2; 9; 4; 4; 1] = Done (m, s1) /\
       0 <= m < 5 /\ m - 0 < 5 - 0 /\ 5 - (m + 1) < 5 - 0) /\
  (0 < 5 -> occurs [2; 9; 4; 4; 1] 0 5 (get [2; 9; 4; 4; 1] (0 + Z.quot (5 - 0) 2))) /\
  (exists s', run (quicksort 6 0 5) [2; 9; 4; 4; 1] = Done (tt, s')) /\
  (exists s', run (parallelQuicksort (fun _ _ => [true; false; false]) 6 2 0 5)
                [2; 9; 4; 4; 1] = Done (tt, s')).
Proof.
  apply (split_shrinks_and_sorts_terminate (fun _ _ => [true; false; false]) 2 6 0 5
           [2; 9; 4; 4; 1]); [lia|lia|by vm_compute|by vm_compute].
Defined.

(** C8 (sorted input): on a non-descending input, and so on the empty and
    on every one-element input, [quicksort] and [parallelQuicksort] finish
    without a fault and leave the vector as it was. *)
Theorem sorted_input_unchanged (s : list Z) (sched : Z -> Z -> list bool) (g : N)
    (fuel : nat) :
  len s < Z.of_nat fuel ->
  nondescending s \/ (length s <= 1)%nat ->
  sort fuel s = Done s /\ parallelSort sched fuel g s = Done s.
Proof.
  intros Hfuel Hs.
  assert (nondescending s) as Hnd.
  { destruct Hs as [?|?]; [done|by apply nondescending_short]. }
  assert (sort fuel s = Done s) as R.
  { destruct (sort_shuffles fuel s Hfuel) as (out & R & Hsh).
    by rewrite R, (shuffles_sorted _ _ _ _ Hnd Hsh). }
  split; [done|]. by rewrite parallelSort_sort.
Qed.

Lemma sorted_input_unchanged_witness :
  nondescending [1; 2; 2; 5] /\
  sort 5 [1; 2; 2; 5] = Done [1; 2; 2; 5] /\
  parallelSort (fun _ _ => [false; false; true]) 5 1 [1; 2; 2; 5] = Done [1; 2; 2; 5].
Proof.
  assert (nondescending [1; 2; 2; 5]) as Hnd by (by apply nondescendingb_spec).
  split; [exact Hnd|].
  apply (sorted_input_unchanged [1; 2; 2; 5] (fun _ _ => [false; false; true]) 1 5);
    [by vm_compute|by left].
Defined.

(** C9 (worked example): on [[5; 3; 8; 1; 9; 2]] both sorts return
    [[1; 2; 3; 5; 8; 9]], whatever the interleaving and the granularity. *)
Theorem sort_5_3_8_1_9_2 (k : nat) (sched : Z -> Z -> list bool) (g : N) :
  sort (7 + k) [5; 3; 8; 1; 9; 2] = Done [1; 2; 3; 5; 8; 9] /\
  parallelSort sched (7 + k) g [5; 3; 8; 1; 9; 2] = Done [1; 2; 3; 5; 8; 9].
Proof.
  assert (sort (7 + k) [5; 3; 8; 1; 9; 2] = Done [1; 2; 3; 5; 8; 9]) as Hs.
  { apply (sort_mono 7); [by vm_compute|lia]. }
  split; [done|]. rewrite parallelSort_sort; [done|]. unfold len. simpl. lia.
Qed.

(** C10 (frame): on a range [[b, e)] inside the vector, [partition] (for a
    pivot that occurs in the range), [quicksort] and [parallelQuicksort]
    finish, dereference positions of [[b, e)] only and leave every element
    outside [[b, e)] as it was.  On a non-empty range the two sibling calls
    are on [[b, m)] and [[m + 1, e)] with [b <= m < e]: each is confined to
    its own range, and no position lies in both. *)
Theorem sorts_stay_in_range (sched : Z -> Z -> list bool) (g : N) (fuel : nat)
    (b e : Z) (s : list Z) :
  0 <= b -> b <= e -> e <= len s -> e - b < Z.of_nat fuel ->
  (forall ref, occurs s b e ref -> confined b e (partition fuel b e ref) s) /\
  confined b e (quicksort fuel b e) s /\
  confined b e (parallelQuicksort sched fuel g b e) s /\
  (b < e ->
   exists m s1 f,
     fuel = S f /\ b <= m < e /\ length s1 = length s /\
     run (quicksort fuel b e) s = run (quicksort f b m >> quicksort f (m + 1) e) s1 /\
     (Z.of_N g < e - b ->
      run (parallelQuicksort sched fuel g b e) s =
        run (parallel_invoke (sched b e)
               (parallelQuicksort sched f default_granularity b m)
               (parallelQuicksort sched f default_granularity (m + 1) e)) s1) /\
     (forall i, ~ (range b m i /\ range (m + 1) e i)) /\
     forall s2, length s2 = length s ->
       confined b m (quicksort f b m) s2 /\
       confined (m + 1) e (quicksort f (m + 1) e) s2 /\
       confined b m (parallelQuicksort sched f default_granularity b m) s2 /\
       confined (m + 1) e (parallelQuicksort sched f default_granularity (m + 1) e) s2).
Proof.
  intros Hb Hbe He Hfuel. split_and!.
  - intros ref Hocc.
    assert (b < e) as Hlt by (destruct Hocc as (p & ? & _); lia).
    destruct (partition_spec fuel b e ref s) as (m & s1 & R & _ & T & W & _); try done.
    by eapply shuffles_confined.
  - destruct (quicksort_spec fuel b e s) as (s' & R & T & W); try done.
    by eapply shuffles_confined.
  - destruct (parallelQuicksort_spec sched fuel g b e s) as (s' & R & T & W); try done.
    by eapply shuffles_confined.
  - intros Hlt. destruct fuel as [|f]; [lia|].
    destruct (pivot_partition (S f) b e s) as (m & s1 & Hm & T1 & Hpp); try done.
    exists m, s1, f. split_and!; try done; try lia.
    + by eapply shuffles_length.
    + cbn [quicksort]. rewrite (proj2 (Z.ltb_lt _ _) Hlt). apply Hpp.
    + intros Hg. cbn [parallelQuicksort].
      rewrite (proj2 (Z.ltb_lt _ _) Hlt), (proj2 (Z.leb_gt _ _) Hg). apply Hpp.
    + unfold range. intros i. lia.
    + intros s2 L2. assert (len s2 = len s) by (unfold len; by rewrite L2).
      split_and!.
      * destruct (quicksort_spec f b m s2) as (s' & R & T & W); try lia.
        by eapply shuffles_confined.
      * destruct (quicksort_spec f (m + 1) e s2) as (s' & R & T & W); try lia.
        by eapply shuffles_confined.
      * destruct (parallelQuicksort_spec sched f default_granularity b m s2)
          as (s' & R & T & W); try lia.
        by eapply shuffles_confined.
      * destruct (parallelQuicksort_spec sched f default_granularity (m + 1) e s2)
          as (s' & R & T & W); try lia.
        by eapply shuffles_confined.
Qed.

Lemma sorts_stay_in_range_witness :
  confined 1 4 (quicksort 4 1 4) [9; 3; 1; 2; 0] /\
  confined 1 4 (parallelQuicksort (fun _ _ => [false; true]) 4 1 1 4) [9; 3; 1; 2; 0].
Proof.
  pose proof (sorts_stay_in_range (fun _ _ => [false; true]) 1 4 1 4 [9; 3; 1; 2; 0]
                ltac:(lia) ltac:(lia) ltac:(by vm_compute) ltac:(by vm_compute))
    as (_ & Hq & Hp & _).
  split; [exact Hq|exact Hp].
Defined.

(** ** Further properties of the partitioner *)

Lemma swapped_same s l r :
  0 <= l < len s -> 0 <= r < len s -> get s l = get s r -> swapped s l r = s.
Proof.
  intros Hl Hr E. apply vec_ext; [apply length_swapped|]. intros i _.
  rewrite get_swapped by lia. repeat case_decide; congruence.
Qed.

Lemma load_Fault {A} i (k : Z -> prog A) s :
  ~ (0 <= i < len s) -> run (let* x := load i in k x) s = Fault i.
Proof. intros H. simpl. by rewrite (at_pos_None _ _ H). Qed.

(** The left cursor of a pivot above everything up to the end of the
    vector runs off the vector. *)
Lemma scan_up_Fault ref s fuel : forall l,
  0 <= l + 1 <= len s -> (forall i, l < i < len s -> get s i < ref) ->
  len s - l <= Z.of_nat fuel ->
  run (scan_up fuel ref l) s = Fault (len s).
Proof.
  induction fuel as [|f IH]; intros l Hl Hlt Hfuel; [lia|].
  cbn [scan_up]. destruct (decide (l + 1 = len s)) as [E|E].
  - rewrite E. apply load_Fault. lia.
  - rewrite (bind_Done _ _ _ _ _ (load_Done (l + 1) s ltac:(lia))).
    rewrite (proj2 (Z.ltb_lt _ _)) by (apply Hlt; lia).
    apply IH; [lia| |lia]. intros i Hi. apply Hlt. lia.
Qed.

(** The right cursor of a pivot below everything down to the start of the
    vector runs off the vector. *)
Lemma scan_down_Fault ref s fuel : forall r,
  0 <= r <= len s -> (forall i, 0 <= i < r -> ref < get s i) ->
  r < Z.of_nat fuel ->
  run (scan_down fuel ref r) s = Fault (-1).
Proof.
  induction fuel as [|f IH]; intros r Hr Hgt Hfuel; [lia|].
  cbn [scan_down]. destruct (decide (r = 0)) as [E|E].
  - rewrite E. apply load_Fault. lia.
  - rewrite (bind_Done _ _ _ _ _ (load_Done (r - 1) s ltac:(lia))).
    rewrite Z.gtb_ltb, (proj2 (Z.ltb_lt _ _)) by (apply Hgt; lia).
    apply IH; [lia| |lia]. intros i Hi. apply Hgt. lia.
Qed.

(** The scan of a cursor that stops at once. *)
Lemma scan_up_stop ref s fuel l :
  0 <= l + 1 < len s -> ref <= get s (l + 1) ->
  run (scan_up (S fuel) ref l) s = Done (l + 1, s).
Proof.
  intros Hl Hge. cbn [scan_up].
  rewrite (bind_Done _ _ _ _ _ (load_Done (l + 1) s Hl)).
  by rewrite (proj2 (Z.ltb_ge _ _) Hge).
Qed.

Lemma scan_down_stop ref s fuel r :
  0 <= r - 1 < len s -> get s (r - 1) <= ref ->
  run (scan_down (S fuel) ref r) s = Done (r - 1, s).
Proof.
  intros Hr Hle. cbn [scan_down].
  rewrite (bind_Done _ _ _ _ _ (load_Done (r - 1) s Hr)).
  by rewrite Z.gtb_ltb, (proj2 (Z.ltb_ge _ _) Hle).
Qed.

Lemma partition_unfold fuel b e ref :
  b < e ->
  partition (S fuel) b e ref =
    (let* l := scan_up (S fuel) ref (b - 1) in
     let* r := scan_down (S fuel) ref e in
     if l >=? r then ret r
     else iter_swap l r >> partition_loop (S fuel) fuel ref l r).
Proof.
  intros Hbe. unfold partition. by rewrite Z.geb_leb, (proj2 (Z.leb_gt _ _)) by lia.
Qed.

Lemma scan_up_begin ref s fuel b :
  0 <= b < len s -> ref <= get s b ->
  run (scan_up (S fuel) ref (b - 1)) s = Done (b, s).
Proof.
  intros Hb Hge. pose proof (scan_up_stop ref s fuel (b - 1)) as H.
  replace (b - 1 + 1) with b in H by lia. by apply H.
Qed.

(** X1.  A pivot above every element from [begin] to the end of the vector
    (so a pivot that does not occur in the range): the left cursor has
    nothing to stop at, and [partition] dereferences the position one past
    the end of the vector. *)
Theorem partition_faults_past_end (fuel : nat) (b e ref : Z) (s : list Z) :
  0 <= b -> b < e -> e <= len s ->
  (forall i, b <= i < len s -> get s i < ref) ->
  len s - b < Z.of_nat fuel ->
  run (partition fuel b e ref) s = Fault (len s).
Proof.
  intros Hb Hbe He Hlt Hfuel. destruct fuel as [|f]; [lia|].
  rewrite partition_unfold, run_bind by done.
  rewrite scan_up_Fault; [done|lia| |lia]. intros i Hi. apply Hlt. lia.
Qed.

Lemma partition_faults_past_end_witness :
  run (partition 5 1 3 9) [7; 2; 5; 8] = Fault (len [7; 2; 5; 8]).
Proof.
  apply (partition_faults_past_end 5 1 3 9 [7; 2; 5; 8]);
    [lia|lia|by vm_compute| |by vm_compute].
  intros i Hi. change (len [7; 2; 5; 8]) with 4 in Hi.
  assert (i = 1 \/ i = 2 \/ i = 3) as [->|[->| ->]] by lia; by vm_compute.
Defined.

(** X2.  A pivot below every element from the start of the vector to the
    end of the range: the right cursor has nothing to stop at, and
    [partition] dereferences the position before the start of the vector. *)
Theorem partition_faults_before_start (fuel : nat) (b e ref : Z) (s : list Z) :
  0 <= b -> b < e -> e <= len s ->
  (forall i, 0 <= i < e -> ref < get s i) ->
  e < Z.of_nat fuel ->
  run (partition fuel b e ref) s = Fault (-1).
Proof.
  intros Hb Hbe He Hgt Hfuel. destruct fuel as [|f]; [lia|].
  rewrite partition_unfold by done.
  rewrite (bind_Done _ _ _ _ _ (scan_up_begin ref s f b ltac:(lia)
             ltac:(apply Z.lt_le_incl, Hgt; lia))).
  rewrite run_bind, scan_down_Fault; [done|lia|done|lia].
Qed.

Lemma partition_faults_before_start_witness :
  run (partition 5 1 3 0) [7; 2; 5; 8] = Fault (-1).
Proof.
  apply (partition_faults_before_start 5 1 3 0 [7; 2; 5; 8]);
    [lia|lia|by vm_compute| |by vm_compute].
  intros i Hi. assert (i = 0 \/ i = 1 \/ i = 2) as [->|[->| ->]] by lia; by vm_compute.
Defined.

(** X3.  A pivot below every element of the range, with an element at most
    the pivot at a position [q] before [begin] and nothing but larger
    elements between [q] and the range: the right cursor leaves the range
    and [partition] returns [q], a split before [begin]; the vector is
    unchanged. *)
Theorem partition_split_before_begin (fuel : nat) (q b e ref : Z) (s : list Z) :
  0 <= q -> q < b -> b < e -> e <= len s ->
  get s q <= ref -> (forall i, q < i < e -> ref < get s i) ->
  e - q < Z.of_nat fuel ->
  run (partition fuel b e ref) s = Done (q, s).
Proof.
  intros Hq Hqb Hbe He Hle Hgt Hfuel. destruct fuel as [|f]; [lia|].
  rewrite partition_unfold by done.
  rewrite (bind_Done _ _ _ _ _ (scan_up_begin ref s f b ltac:(lia)
             ltac:(apply Z.lt_le_incl, Hgt; lia))).
  destruct (scan_down_spec (S f) ref e s q) as (r' & R & Hr' & _ & _ & Hstop);
    try lia.
  assert (r' = q) as ->.
  { destruct (decide (r' = q)); [done|]. specialize (Hgt r' ltac:(lia)). lia. }
  rewrite (bind_Done _ _ _ _ _ R).
  by rewrite Z.geb_leb, (proj2 (Z.leb_le _ _)) by lia.
Qed.

Lemma partition_split_before_begin_witness :
  run (partition 5 2 4 3) [1; 6; 5; 8] = Done (0, [1; 6; 5; 8]).
Proof.
  apply (partition_split_before_begin 5 0 2 4 3 [1; 6; 5; 8]);
    [lia|lia|lia|by vm_compute|by vm_compute| |by vm_compute].
  intros i Hi. assert (i = 1 \/ i = 2 \/ i = 3) as [->|[->| ->]] by lia; by vm_compute.
Defined.

(** X4.  The pivot is the last element of the range and every other
    element of the range is smaller (a two-element ascending range, with
    the midpoint pivot of the sorts): [partition] returns the last
    position [end - 1] and exchanges nothing, so the part [[begin, m]] is
    the whole range. *)
Theorem partition_pivot_last (fuel : nat) (b e ref : Z) (s : list Z) :
  0 <= b -> b < e -> e <= len s ->
  get s (e - 1) = ref -> (forall i, b <= i < e - 1 -> get s i < ref) ->
  e - b < Z.of_nat fuel ->
  run (partition fuel b e ref) s = Done (e - 1, s).
Proof.
  intros Hb Hbe He Hpiv Hlt Hfuel. destruct fuel as [|f]; [lia|].
  rewrite partition_unfold by done.
  destruct (scan_up_spec (S f) ref (b - 1) s (e - 1)) as (l' & R & Hl' & _ & _ & Hstop);
    try lia.
  assert (l' = e - 1) as ->.
  { destruct (decide (l' = e - 1)); [done|]. specialize (Hlt l' ltac:(lia)). lia. }
  rewrite (bind_Done _ _ _ _ _ R).
  rewrite (bind_Done _ _ _ _ _ (scan_down_stop ref s f e ltac:(lia) ltac:(lia))).
  by rewrite Z.geb_leb, (proj2 (Z.leb_le _ _)) by lia.
Qed.

Lemma partition_pivot_last_witness :
  run (partition 4 1 3 5) [9; 2; 5; 0] = Done (3 - 1, [9; 2; 5; 0]).
Proof.
  apply (partition_pivot_last 4 1 3 5 [9; 2; 5; 0]);
    [lia|lia|by vm_compute|by vm_compute| |by vm_compute].
  intros i Hi. assert (i = 1) as -> by lia. by vm_compute.
Defined.

(** X5.  The pivot is the first element of the range and every other
    element of the range is larger: [partition] returns [begin] and
    exchanges nothing. *)
Theorem partition_pivot_first (fuel : nat) (b e ref : Z) (s : list Z) :
  0 <= b -> b < e -> e <= len s ->
  get s b = ref -> (forall i, b < i < e -> ref < get s i) ->
  e - b < Z.of_nat fuel ->
  run (partition fuel b e ref) s = Done (b, s).
Proof.
  intros Hb Hbe He Hpiv Hgt Hfuel. destruct fuel as [|f]; [lia|].
  rewrite partition_unfold by done.
  rewrite (bind_Done _ _ _ _ _ (scan_up_begin ref s f b ltac:(lia) ltac:(lia))).
  destruct (scan_down_spec (S f) ref e s b) as (r' & R & Hr' & _ & _ & Hstop);
    try lia.
  assert (r' = b) as ->.
  { destruct (decide (r' = b)); [done|]. specialize (Hgt r' ltac:(lia)). lia. }
  rewrite (bind_Done _ _ _ _ _ R).
  by rewrite Z.geb_leb, (proj2 (Z.leb_le _ _)) by lia.
Qed.

Lemma partition_pivot_first_witness :
  run (partition 4 1 4 2) [9; 2; 5; 7] = Done (1, [9; 2; 5; 7]).
Proof.
  apply (partition_pivot_first 4 1 4 2 [9; 2; 5; 7]);
    [lia|lia|by vm_compute|by vm_compute| |by vm_compute].
  intros i Hi. assert (i = 2 \/ i = 3) as [->| ->] by lia; by vm_compute.
Defined.

Lemma partition_loop_all_equal ref b e s scans fuel : forall l r,
  0 <= b -> b < e -> e <= len s -> (forall i, b <= i < e -> get s i = ref) ->
  b - 1 <= l -> l < r -> r <= e -> l + r = b + e - 1 ->
  r - l <= Z.of_nat fuel ->
  run (partition_loop (S scans) fuel ref l r) s = Done (b + (e - b - 1) / 2, s).
Proof.
  induction fuel as [|f IH]; intros l r Hb Hbe He Heq Hl Hlr Hr Hsum Hfuel; [lia|].
  cbn [partition_loop].
  rewrite (bind_Done _ _ _ _ _ (scan_up_stop ref s scans l ltac:(lia)
             ltac:(rewrite Heq; lia))).
  rewrite (bind_Done _ _ _ _ _ (scan_down_stop ref s scans r ltac:(lia)
             ltac:(rewrite Heq; lia))).
  destruct (l + 1 >=? r - 1) eqn:E.
  - rewrite Z.geb_leb in E. apply Z.leb_le in E. simpl. do 2 f_equal.
    assert (e - b - 1 = 2 * (r - 1 - b) \/ e - b - 1 = 2 * (r - 1 - b) + 1) as [H|H] by lia.
    + rewrite H, Z.mul_comm, Z.div_mul by lia. lia.
    + rewrite H, Z.mul_comm, Z.div_add_l by lia.
      change (1 / 2) with 0. lia.
  - rewrite Z.geb_leb in E. apply Z.leb_gt in E.
    rewrite (bind_Done _ _ _ _ _ (iter_swap_Done (l + 1) (r - 1) s ltac:(lia) ltac:(lia))).
    rewrite swapped_same by (rewrite ?Heq; lia).
    apply IH; try done; lia.
Qed.

(** X6.  A range whose elements all equal the pivot: [partition] returns
    the middle position [begin + (end - begin - 1) / 2] and leaves the
    vector as it was, so equal keys are split evenly. *)
Theorem partition_all_equal_split (fuel : nat) (b e ref : Z) (s : list Z) :
  0 <= b -> b < e -> e <= len s ->
  (forall i, b <= i < e -> get s i = ref) ->
  e - b < Z.of_nat fuel ->
  run (partition fuel b e ref) s = Done (b + (e - b - 1) / 2, s).
Proof.
  intros Hb Hbe He Heq Hfuel. destruct fuel as [|f]; [lia|].
  unfold partition. rewrite Z.geb_leb, (proj2 (Z.leb_gt _ _)) by lia.
  apply partition_loop_all_equal; try done; lia.
Qed.

Lemma partition_all_equal_split_witness :
  run (partition 6 1 6 4) [0; 4; 4; 4; 4; 4; 9] =
    Done (1 + (6 - 1 - 1) / 2, [0; 4; 4; 4; 4; 4; 9]).
Proof.
  apply (partition_all_equal_split 6 1 6 4 [0; 4; 4; 4; 4; 4; 9]);
    [lia|lia|by vm_compute| |by vm_compute].
  intros i Hi.
  assert (i = 1 \/ i = 2 \/ i = 3 \/ i = 4 \/ i = 5) as [->|[->|[->|[->| ->]]]] by lia;
    by vm_compute.
Defined.

(** X7.  [partition] only rearranges: for a pivot that occurs in the
    range, the vector it leaves is a permutation of the vector it was
    given, of the same length. *)
Theorem partition_is_permutation (fuel : nat) (b e ref : Z) (s : list Z) :
  0 <= b -> b < e -> e <= len s -> occurs s b e ref ->
  e - b < Z.of_nat fuel ->
  exists m s', run (partition fuel b e ref) s = Done (m, s') /\
    s' ≡ₚ s /\ length s' = length s.
Proof.
  intros Hb Hbe He Hocc Hfuel.
  destruct (partition_spec fuel b e ref s) as (m & s' & R & _ & T & _); try done.
  exists m, s'. split; [done|]. split; [by eapply shuffles_perm|by eapply shuffles_length].
Qed.

Lemma partition_is_permutation_witness :
  exists m s', run (partition 6 0 5 4) [2; 9; 4; 4; 1] = Done (m, s') /\
    s' ≡ₚ [2; 9; 4; 4; 1] /\ length s' = length [2; 9; 4; 4; 1].
Proof.
  apply (partition_is_permutation 6 0 5 4 [2; 9; 4; 4; 1]);
    [lia|lia|by vm_compute| |by vm_compute].
  exists 2. split; [lia|reflexivity].
Defined.

(** ** Further properties of the sorts *)






(** X9.  [quicksort] on a range looks at that range only: from two
    vectors of one length that agree on [[b, e)] it finishes on both and
    leaves vectors that agree on [[b, e)], each unchanged outside. *)
Theorem quicksort_depends_on_range_only (fuel : nat) (b e : Z) (s s2 : list Z) :
  0 <= b -> b <= e -> e <= len s -> e - b < Z.of_nat fuel ->
  length s2 = length s -> (forall i, b <= i < e -> at_pos s2 i = at_pos s i) ->
  exists s' s2',
    run (quicksort fuel b e) s = Done (tt, s') /\
    run (quicksort fuel b e) s2 = Done (tt, s2') /\
    (forall i, b <= i < e -> at_pos s2' i = at_pos s' i) /\
    (forall i, ~ (b <= i < e) -> at_pos s' i = at_pos s i) /\
    (forall i, ~ (b <= i < e) -> at_pos s2' i = at_pos s2 i).
Proof.
  intros Hb Hbe He Hfuel Hl Hag.
  destruct (quicksort_spec fuel b e s) as (s' & R & T & W); try done.
  destruct (quicksort_spec fuel b e s2) as (s2' & R2 & T2 & _); try done.
  { unfold len in *. lia. }
  destruct (within_run _ _ _ W) as (u & s'' & R' & _ & _ & Loc).
  rewrite R in R'. injection R' as <- <-.
  destruct (Loc s2) as (_ & s2'' & R2' & [Hl' Hag']).
  { split; [done|]. intros i Hi. unfold get. by rewrite Hag. }
  rewrite R2 in R2'. injection R2' as <-.
  exists s', s2'. split_and!; try done.
  - intros i Hi. apply at_pos_ext; [done|]. symmetry. by apply Hag'.
  - intros i Hi. apply at_pos_ext; [by eapply shuffles_length|by eapply shuffles_frame].
  - intros i Hi. apply at_pos_ext; [by eapply shuffles_length|by eapply shuffles_frame].
Qed.

Lemma quicksort_depends_on_range_only_witness :
  exists s' s2',
    run (quicksort 4 1 4) [9; 3; 1; 2; 0] = Done (tt, s') /\
    run (quicksort 4 1 4) [5; 3; 1; 2; 7] = Done (tt, s2') /\
    (forall i, 1 <= i < 4 -> at_pos s2' i = at_pos s' i) /\
    (forall i, ~ (1 <= i < 4) -> at_pos s' i = at_pos [9; 3; 1; 2; 0] i) /\
    (forall i, ~ (1 <= i < 4) -> at_pos s2' i = at_pos [5; 3; 1; 2; 7] i).
Proof.
  apply (quicksort_depends_on_range_only 4 1 4 [9; 3; 1; 2; 0] [5; 3; 1; 2; 7]);
    [lia|lia|by vm_compute|by vm_compute|done|].
  intros i Hi. assert (i = 1 \/ i = 2 \/ i = 3) as [->|[->| ->]] by lia; by vm_compute.
Defined.



Lemma partition_two_descending a b :
  b < a -> run (partition 3 0 2 b) [a; b] = Done (0, [b; a]).
Proof.
  intros Hab. rewrite partition_unfold by lia.
  rewrite (bind_Done _ _ _ _ _ (scan_up_begin b [a; b] 2 0 ltac:(by vm_compute)
             ltac:(change (get [a; b] 0) with a; lia))).
  rewrite (bind_Done _ _ _ _ _ (scan_down_stop b [a; b] 2 2 ltac:(by vm_compute)
             ltac:(change (get [a; b] (2 - 1)) with b; lia))).
  change (0 >=? 2 - 1) with false. cbv iota.
  rewrite (bind_Done _ _ _ _ _ (iter_swap_Done 0 (2 - 1) [a; b]
             ltac:(by vm_compute) ltac:(by vm_compute))).
  change (swapped [a; b] 0 (2 - 1)) with [b; a]. cbn [partition_loop].
  rewrite (bind_Done _ _ _ _ _ (scan_up_stop b [b; a] 2 0 ltac:(by vm_compute)
             ltac:(change (get [b; a] (0 + 1)) with a; lia))).
  rewrite (bind_Done _ _ _ _ _ (scan_down_stop b [b; a] 2 (2 - 1) ltac:(by vm_compute)
             ltac:(change (get [b; a] (2 - 1 - 1)) with b; lia))).
  reflexivity.
Qed.

Lemma quicksort_sorted_unchanged fuel b e s :
  nondescending s -> 0 <= b -> b <= e -> e <= len s -> e - b < Z.of_nat fuel ->
  run (quicksort fuel b e) s = Done (tt, s).
Proof.
  intros Hs Hb Hbe He Hfuel.
  destruct (quicksort_spec fuel b e s) as (s' & R & T & _); try done.
  by rewrite R, (shuffles_sorted _ _ _ _ Hs T).
Qed.

Lemma quicksort_unfold f b e :
  quicksort (S f) b e =
    if b <? e then
      let* ref := load (b + Z.quot (e - b) 2) in
      let* m := partition (S f) b e ref in
      quicksort f b m >> quicksort f (m + 1) e
    else ret tt.
Proof. reflexivity. Qed.

Lemma sort_two_descending a b : b < a -> sort 3 [a; b] = Done [b; a].
Proof.
  intros Hab. unfold sort. change (len [a; b]) with 2. rewrite quicksort_unfold.
  change (0 <? 2) with true. cbv iota. change (0 + Z.quot (2 - 0) 2) with 1.
  rewrite (bind_Done _ _ _ _ _ (load_Done 1 [a; b] ltac:(by vm_compute))).
  change (get [a; b] 1) with b.
  rewrite (bind_Done _ _ _ _ _ (partition_two_descending a b Hab)).
  assert (nondescending [b; a]) as Hs.
  { intros [|[|i]] x y Hx Hy; simplify_eq/=. lia. }
  rewrite (bind_Done _ _ _ _ _ (quicksort_sorted_unchanged 2 0 0 [b; a] Hs
             ltac:(lia) ltac:(lia) ltac:(by vm_compute) ltac:(by vm_compute))).
  cbv beta.
  by rewrite (quicksort_sorted_unchanged 2 (0 + 1) 2 [b; a] Hs
                ltac:(lia) ltac:(lia) ltac:(by vm_compute) ltac:(by vm_compute)).
Qed.

(** X11.  Vectors of at most two elements are sorted: both sorts finish
    with the same vector, which is non-descending and a permutation of the
    input.  (The defect of the recursive call needs three elements.) *)
Theorem sorts_sort_up_to_two (s : list Z) (sched : Z -> Z -> list bool) (g : N)
    (fuel : nat) :
  (length s <= 2)%nat -> len s < Z.of_nat fuel ->
  exists out,
    sort fuel s = Done out /\ parallelSort sched fuel g s = Done out /\
    nondescending out /\ out ≡ₚ s.
Proof.
  intros Hshort Hfuel.
  destruct (sort_shuffles fuel s Hfuel) as (out & R & Hsh).
  exists out. split; [done|]. split; [by rewrite parallelSort_sort|].
  split; [|by eapply shuffles_perm].
  destruct (nondescendingb s) eqn:E.
  - apply nondescendingb_spec in E. by rewrite (shuffles_sorted _ _ _ _ E Hsh).
  - destruct s as [|a [|b [|c t]]]; simpl in *; try done; [|lia].
    rewrite andb_true_r in E. apply Z.leb_gt in E.
    assert (sort fuel [a; b] = Done [b; a]) as R'.
    { apply (sort_mono 3); [by apply sort_two_descending|unfold len in Hfuel; simpl in *; lia]. }
    rewrite R in R'. injection R' as ->.
    intros [|[|i]] x y Hx Hy; simplify_eq/=. lia.
Qed.

Lemma sorts_sort_up_to_two_witness :
  exists out,
    sort 3 [8; 5] = Done out /\ parallelSort (fun _ _ => [false]) 3 1 [8; 5] = Done out /\
    nondescending out /\ out ≡ₚ [8; 5].
Proof.
  apply (sorts_sort_up_to_two [8; 5] (fun _ _ => [false]) 1 3); [simpl; lia|by vm_compute].
Defined.

Lemma range_sorted_le b e s :
  (forall i, b <= i -> i + 1 < e -> get s i <= get s (i + 1)) ->
  forall i j, b <= i -> i <= j -> j < e -> get s i <= get s j.
Proof.
  intros Hadj i j Hi Hij Hj.
  assert (forall d : nat, i + Z.of_nat d < e -> get s i <= get s (i + Z.of_nat d)) as Hd.
  { induction d as [|d IH]; intros Hlt.
    - replace (i + Z.of_nat 0) with i by lia. done.
    - etrans; [apply IH; lia|].
      replace (i + Z.of_nat (S d)) with (i + Z.of_nat d + 1) by lia.
      apply Hadj; lia. }
  specialize (Hd (Z.to_nat (j - i))).
  replace (i + Z.of_nat (Z.to_nat (j - i))) with j in Hd by lia. apply Hd. lia.
Qed.

Lemma shuffles_range_sorted b e s s' :
  0 <= b -> e <= len s ->
  (forall i, b <= i -> i + 1 < e -> get s i <= get s (i + 1)) ->
  shuffles b e s s' -> s' = s.
Proof.
  intros Hb He Hadj Hsh. revert He Hadj.
  induction Hsh as [|s1 s2 s3 (l & r & ? & ? & ? & ? & ? & Hle & Heq) _ IH];
    intros He Hadj; [done|].
  assert (s2 = s1) as ->.
  { rewrite Heq. apply swapped_same; [lia|lia|].
    apply Z.le_antisymm; [|done]. apply (range_sorted_le b e); (done || lia). }
  by apply IH.
Qed.

(** X12.  A range that is already non-descending, inside a vector that
    need not be: both sorts finish and leave the whole vector as it was. *)
Theorem sorted_range_unchanged (sched : Z -> Z -> list bool) (g : N) (fuel : nat)
    (b e : Z) (s : list Z) :
  0 <= b -> b <= e -> e <= len s -> e - b < Z.of_nat fuel ->
  (forall i, b <= i -> i + 1 < e -> get s i <= get s (i + 1)) ->
  run (quicksort fuel b e) s = Done (tt, s) /\
  run (parallelQuicksort sched fuel g b e) s = Done (tt, s).
Proof.
  intros Hb Hbe He Hfuel Hadj.
  destruct (quicksort_spec fuel b e s) as (s' & R & T & _); try done.
  rewrite (shuffles_range_sorted b e s s') in R by done.
  split; [done|]. by destruct (parallel_sequential sched fuel g b e s) as [_ ->].
Qed.

Lemma sorted_range_unchanged_witness :
  run (quicksort 4 1 4) [9; 2; 2; 6; 0] = Done (tt, [9; 2; 2; 6; 0]) /\
  run (parallelQuicksort (fun _ _ => [true; false]) 4 1 1 4) [9; 2; 2; 6; 0] =
    Done (tt, [9; 2; 2; 6; 0]).
Proof.
  apply (sorted_range_unchanged (fun _ _ => [true; false]) 1 4 1 4 [9; 2; 2; 6; 0]);
    [lia|lia|by vm_compute|by vm_compute|].
  intros i H1 H2. assert (i = 1 \/ i = 2) as [->| ->] by lia; by vm_compute.
Defined.

(** X13.  A range that ends past the vector: [quicksort] dereferences a
    position outside the vector, the midpoint if it is outside, else the
    last position [end - 1] of the range, where the right cursor starts. *)
Theorem quicksort_faults_past_vector (fuel : nat) (b e : Z) (s : list Z) :
  0 <= b -> b < e -> len s < e -> e - b < Z.of_nat fuel ->
  run (quicksort fuel b e) s =
    Fault (if b + Z.quot (e - b) 2 <? len s then e - 1 else b + Z.quot (e - b) 2).
Proof.
  intros Hb Hbe He Hfuel. destruct fuel as [|f]; [lia|].
  rewrite quicksort_unfold, (proj2 (Z.ltb_lt _ _) Hbe).
  pose proof (midpoint_in_range b e Hbe) as Hmid.
  set (mid := b + Z.quot (e - b) 2) in *.
  destruct (mid <? len s) eqn:E.
  - apply Z.ltb_lt in E.
    rewrite (bind_Done _ _ _ _ _ (load_Done mid s ltac:(lia))).
    rewrite run_bind, partition_unfold by done.
    destruct (scan_up_spec (S f) (get s mid) (b - 1) s mid) as (l' & R & _); try lia.
    rewrite (bind_Done _ _ _ _ _ R), run_bind.
    cbn [scan_down]. rewrite load_Fault; [done|lia].
  - apply Z.ltb_ge in E. apply load_Fault. lia.
Qed.

Lemma quicksort_faults_past_vector_witness :
  run (quicksort 6 1 5) [3; 1; 2; 7] = Fault (5 - 1).
Proof.
  apply (quicksort_faults_past_vector 6 1 5 [3; 1; 2; 7]);
    [lia|lia|by vm_compute|by vm_compute].
Defined.

(** ** Non-ascending input *)

Lemma half_unique x c : 2 * c <= x <= 2 * c + 1 -> x / 2 = c.
Proof.
  intros H. symmetry. apply (Z.div_unique x 2 c (x - 2 * c)); lia.
Qed.

Section descending.
Variables (b e mid : Z) (s0 : list Z) (scans : nat).
Hypothesis Hb : 0 <= b.
Hypothesis Hbe : b < e.
Hypothesis He : e <= len s0.
Hypothesis Hmid : b + e - 1 <= 2 * mid <= b + e.
Hypothesis Hdesc : forall i j, b <= i -> i <= j -> j < e -> get s0 j <= get s0 i.

(** At the head of the loop the cursors are mirror images of each other,
    what lies behind them is mirrored, and what lies between them is as it
    was. *)
Lemma partition_loop_descending : forall fuel l r s,
  l + r = b + e - 1 -> b - 1 <= l -> l < r -> r <= e ->
  length s = length s0 ->
  (forall i, b <= i <= l \/ r <= i < e -> get s i = get s0 (b + e - 1 - i)) ->
  (forall i, ~ (b <= i <= l \/ r <= i < e) -> get s i = get s0 i) ->
  r - l <= Z.of_nat fuel ->
  exists s',
    run (partition_loop (S scans) fuel (get s0 mid) l r) s =
      Done (b + (e - b - 1) / 2, s') /\
    length s' = length s0 /\
    (forall i, b <= i < e -> get s' i = get s0 (b + e - 1 - i)) /\
    (forall i, ~ (b <= i < e) -> get s' i = get s0 i).
Proof.
  induction fuel as [|f IH]; intros l r s Hsum Hl Hlr Hr Hlen Hrev Hkeep Hfuel; [lia|].
  assert (len s = len s0) as Hlen' by (unfold len; by rewrite Hlen).
  cbn [partition_loop]. destruct (decide (l + 1 = r)) as [Hadj|Hadj].
  - (* the cursors are next to each other: both cross and the loop ends *)
    assert (get s0 mid <= get s (l + 1)) as H1.
    { rewrite Hrev by lia. apply Hdesc; lia. }
    assert (get s (r - 1) <= get s0 mid) as H2.
    { rewrite Hrev by lia. apply Hdesc; lia. }
    rewrite (bind_Done _ _ _ _ _ (scan_up_stop _ s scans l ltac:(lia) H1)).
    rewrite (bind_Done _ _ _ _ _ (scan_down_stop _ s scans r ltac:(lia) H2)).
    rewrite Z.geb_leb, (proj2 (Z.leb_le _ _)) by lia.
    exists s. split_and!; try done.
    + simpl. do 2 f_equal. rewrite (half_unique (e - b - 1) (r - 1 - b)); lia.
    + intros i Hi. apply Hrev. lia.
    + intros i Hi. apply Hkeep. lia.
  - (* both cursors stop at once on elements that are as they were *)
    assert (get s0 mid <= get s (l + 1)) as H1.
    { rewrite Hkeep by lia. apply Hdesc; lia. }
    assert (get s (r - 1) <= get s0 mid) as H2.
    { rewrite Hkeep by lia. apply Hdesc; lia. }
    rewrite (bind_Done _ _ _ _ _ (scan_up_stop _ s scans l ltac:(lia) H1)).
    rewrite (bind_Done _ _ _ _ _ (scan_down_stop _ s scans r ltac:(lia) H2)).
    destruct (l + 1 >=? r - 1) eqn:E.
    + rewrite Z.geb_leb in E. apply Z.leb_le in E.
      exists s. split_and!; try done.
      * simpl. do 2 f_equal. rewrite (half_unique (e - b - 1) (r - 1 - b)); lia.
      * intros i Hi. destruct (decide (i = l + 1)) as [->|].
        -- rewrite Hkeep by lia. f_equal. lia.
        -- apply Hrev. lia.
      * intros i Hi. apply Hkeep. lia.
    + rewrite Z.geb_leb in E. apply Z.leb_gt in E.
      rewrite (bind_Done _ _ _ _ _ (iter_swap_Done (l + 1) (r - 1) s ltac:(lia) ltac:(lia))).
      apply IH; try lia.
      * by rewrite length_swapped.
      * intros i Hi. rewrite get_swapped by lia. repeat case_decide; subst.
        -- rewrite Hkeep by lia. f_equal. lia.
        -- rewrite Hkeep by lia. f_equal. lia.
        -- apply Hrev. lia.
      * intros i Hi. rewrite get_swapped by lia. repeat case_decide; try lia.
        apply Hkeep. lia.
Qed.
End descending.

Lemma reverse_get s i : 0 <= i < len s -> get (reverse s) i = get s (len s - 1 - i).
Proof.
  intros Hi. unfold get, at_pos, len in *. rewrite !decide_True by lia.
  rewrite reverse_lookup by lia. do 2 f_equal. lia.
Qed.

(** X14.  A non-ascending vector comes back reversed, and so sorted: on
    such an input [partition] mirrors the whole range and returns its
    middle, and the recursive calls find their ranges in order. *)
Theorem sorts_reverse_descending (s : list Z) (sched : Z -> Z -> list bool) (g : N)
    (fuel : nat) :
  len s < Z.of_nat fuel ->
  (forall i, 0 <= i -> i + 1 < len s -> get s (i + 1) <= get s i) ->
  sort fuel s = Done (reverse s) /\
  parallelSort sched fuel g s = Done (reverse s) /\
  nondescending (reverse s).
Proof.
  intros Hfuel Hadj.
  assert (forall i j, 0 <= i -> i <= j -> j < len s -> get s j <= get s i) as Hdesc.
  { intros i j Hi Hij Hj.
    assert (forall d : nat, i + Z.of_nat d < len s -> get s (i + Z.of_nat d) <= get s i) as Hd.
    { induction d as [|d IH]; intros Hlt.
      - replace (i + Z.of_nat 0) with i by lia. done.
      - etrans; [|apply IH; lia].
        replace (i + Z.of_nat (S d)) with (i + Z.of_nat d + 1) by lia.
        apply Hadj; lia. }
    specialize (Hd (Z.to_nat (j - i))).
    replace (i + Z.of_nat (Z.to_nat (j - i))) with j in Hd by lia. apply Hd. lia. }
  assert (forall i, 0 <= i -> i + 1 < len s ->
            get (reverse s) i <= get (reverse s) (i + 1)) as Hasc.
  { intros i H0 H1. rewrite !reverse_get by lia. apply Hdesc; lia. }
  assert (0 <= len s) as Hnn by (unfold len; lia).
  assert (sort fuel s = Done (reverse s)) as R.
  { unfold sort. destruct fuel as [|f]; [lia|].
    rewrite quicksort_unfold. destruct (0 <? len s) eqn:E.
    2:{ apply Z.ltb_ge in E. destruct s; [done|]. unfold len in E. simpl in E. lia. }
    apply Z.ltb_lt in E. pose proof (midpoint_in_range 0 (len s) E) as Hmid.
    set (mid := 0 + Z.quot (len s - 0) 2) in *.
    assert (0 + len s - 1 <= 2 * mid <= 0 + len s) as Hhalf.
    { unfold mid. rewrite Z.quot_div_nonneg by lia.
      pose proof (Z.div_mod (len s - 0) 2 ltac:(lia)).
      pose proof (Z.mod_pos_bound (len s - 0) 2 ltac:(lia)). lia. }
    rewrite (bind_Done _ _ _ _ _ (load_Done mid s ltac:(lia))).
    destruct (partition_loop_descending 0 (len s) mid s f ltac:(lia) E ltac:(lia)
                Hhalf Hdesc (S f) (0 - 1) (len s) s)
      as (s' & R1 & L1 & Hrev & Hkeep); try lia; try done.
    assert (s' = reverse s) as ->.
    { apply vec_ext; [by rewrite length_reverse|]. intros i Hi.
      assert (len s' = len s) as Hl by (unfold len; by rewrite L1).
      rewrite Hrev, reverse_get by lia. f_equal; lia. }
    assert (run (partition (S f) 0 (len s) (get s mid)) s =
              Done (0 + (len s - 0 - 1) / 2, reverse s)) as R1'.
    { unfold partition. by rewrite Z.geb_leb, (proj2 (Z.leb_gt _ _)) by lia. }
    rewrite (bind_Done _ _ _ _ _ R1').
    set (m := 0 + (len s - 0 - 1) / 2).
    assert (0 <= m < len s) as Hm.
    { unfold m. pose proof (Z.div_mod (len s - 0 - 1) 2 ltac:(lia)).
      pose proof (Z.mod_pos_bound (len s - 0 - 1) 2 ltac:(lia)). lia. }
    assert (len (reverse s) = len s) as Lr by (unfold len; by rewrite length_reverse).
    destruct (quicksort_spec f 0 m (reverse s)) as (s2 & R2 & T2 & _); try lia.
    rewrite (shuffles_range_sorted 0 m (reverse s) s2) in R2; try done; try lia.
    2:{ intros i H0 H1. apply Hasc; lia. }
    rewrite (bind_Done _ _ _ _ _ R2).
    destruct (quicksort_spec f (m + 1) (len s) (reverse s)) as (s3 & R3 & T3 & _); try lia.
    rewrite (shuffles_range_sorted (m + 1) (len s) (reverse s) s3) in R3; try done; try lia.
    2:{ intros i H0 H1. apply Hasc; lia. }
    by rewrite R3. }
  split; [done|]. split; [by rewrite parallelSort_sort|].
  intros i x y Hx Hy. pose proof (lookup_lt_Some _ _ _ Hy) as Hlt.
  rewrite length_reverse in Hlt.
  rewrite <- (get_lookup _ _ _ Hx), <- (get_lookup _ _ _ Hy).
  replace (Z.of_nat (S i)) with (Z.of_nat i + 1) by lia.
  apply Hasc; unfold len; lia.
Qed.

Lemma sorts_reverse_descending_witness :
  sort 6 [9; 7; 7; 4; 1] = Done (reverse [9; 7; 7; 4; 1]) /\
  parallelSort (fun _ _ => [true; false; false]) 6 2 [9; 7; 7; 4; 1] =
    Done (reverse [9; 7; 7; 4; 1]) /\
  nondescending (reverse [9; 7; 7; 4; 1]).
Proof.
  apply (sorts_reverse_descending [9; 7; 7; 4; 1] (fun _ _ => [true; false; false]) 2 6);
    [by vm_compute|].
  intros i H0 H1. change (len [9; 7; 7; 4; 1]) with 5 in H1.
  assert (i = 0 \/ i = 1 \/ i = 2 \/ i = 3) as [->|[->|[->| ->]]] by lia; by vm_compute.
Defined.
